(** * Presence and session handling of the chat server (server.js)

    A shallow embedding of the socket.io part of [server.js]: the global
    [activeUsers] object, the per-socket fields [username] and
    [currentRoom], socket.io room membership, the three mongoose
    collections as far as the handlers touch them, and the five event
    handlers [joinRoom], [chatMessage], [typing], [disconnect] and
    [leaveRoom].

    Modelling conventions.
    - A JavaScript string is its sequence of UTF-16 code units.
    - A plain object used as a dictionary is an association list in
      property-creation order, so that [Object.keys] can be computed the way
      the language orders own keys.  Only own properties are modelled.  For
      a name that an object literal inherits from [Object.prototype]
      ([inherited_names]) the program reads and writes the inherited
      property instead; the statements below that such a name would
      falsify are made for [plain] names only.
    - A handler runs from its first statement to its last without another
      handler running in between, that is, every [await]ed persistence call
      settles before the next event is handled; its outcome (resolve or
      reject) is part of the event.  Statements about a run are statements
      about events handled one after the other in this way.
    - [console.log] and [console.error] are not part of the outputs. *)

From Stdlib Require Import ZArith Sorted.
From stdpp Require Import strings gmap list fin_maps.

#[local] Set Warnings "-clear-no-such-hyp".

Local Open Scope N_scope.

(** ** JavaScript strings *)

Abbreviation jsstring := (list N).

(** The code units of an ASCII literal. *)
Definition js (s : string) : jsstring :=
  map Ascii.N_of_ascii (String.list_ascii_of_string s).

(** [WhiteSpace] and [LineTerminator] code units, the ones
    [String.prototype.trim] strips. *)
Definition is_white (c : N) : bool :=
  (9 <=? c) && (c <=? 13)
  || (c =? 32) || (c =? 160) || (c =? 5760)
  || (8192 <=? c) && (c <=? 8202)
  || (c =? 8232) || (c =? 8233) || (c =? 8239) || (c =? 8287)
  || (c =? 12288) || (c =? 65279).

Fixpoint trim_start (s : jsstring) : jsstring :=
  match s with
  | c :: s' => if is_white c then trim_start s' else s
  | [] => []
  end.

Definition trim_end (s : jsstring) : jsstring := rev (trim_start (rev s)).

(** [s.trim()] *)
Definition trim (s : jsstring) : jsstring := trim_end (trim_start s).

(** Truthiness of a string value: only the empty string is falsy. *)
Definition truthy (s : jsstring) : bool :=
  match s with [] => false | _ => true end.

(** Truthiness of a property that is either [undefined] or a string. *)
Definition truthy_opt (o : option jsstring) : bool :=
  match o with Some s => truthy s | None => false end.

(** ** Plain objects as dictionaries *)

Abbreviation jsobj V := (list (jsstring * V)).

Section Objects.
Context {V : Type}.

(** [o[k]], with [None] standing for [undefined]. *)
Fixpoint obj_get (o : jsobj V) (k : jsstring) : option V :=
  match o with
  | [] => None
  | (k', v) :: o' => if decide (k' = k) then Some v else obj_get o' k
  end.

(** [o[k] = v]: an existing property keeps its place, a new one is
    created last. *)
Fixpoint obj_set (o : jsobj V) (k : jsstring) (v : V) : jsobj V :=
  match o with
  | [] => [(k, v)]
  | (k', v') :: o' =>
      if decide (k' = k) then (k, v) :: o' else (k', v') :: obj_set o' k v
  end.

(** [delete o[k]] *)
Definition obj_delete (o : jsobj V) (k : jsstring) : jsobj V :=
  filter (λ p, p.1 ≠ k) o.

(** Own property names in creation order. *)
Definition own_names (o : jsobj V) : list jsstring := o.*1.

End Objects.

(** *** The order of [Object.keys]

    Own keys that are array indices (canonical decimal numerals below
    [2^32 - 1]) come first, in ascending numeric order; all other keys
    follow in creation order. *)

Definition digit (c : N) : option N :=
  if (48 <=? c) && (c <=? 57) then Some (c - 48) else None.

Fixpoint digits_value (acc : N) (s : jsstring) : option N :=
  match s with
  | [] => Some acc
  | c :: s' =>
      match digit c with
      | Some d => digits_value (10 * acc + d) s'
      | None => None
      end
  end.

Definition array_index (s : jsstring) : option N :=
  match s with
  | [] => None
  | [48] => Some 0
  | 48 :: _ => None
  | _ =>
      match digits_value 0 s with
      | Some n => if n <? 4294967295 then Some n else None
      | None => None
      end
  end.

Definition is_index (s : jsstring) : bool :=
  match array_index s with Some _ => true | None => false end.

Definition index_value (s : jsstring) : N :=
  match array_index s with Some n => n | None => 0 end.

Fixpoint insert_index (k : jsstring) (l : list jsstring) : list jsstring :=
  match l with
  | [] => [k]
  | k' :: l' =>
      if index_value k <=? index_value k' then k :: l
      else k' :: insert_index k l'
  end.

Fixpoint sort_indices (l : list jsstring) : list jsstring :=
  match l with
  | [] => []
  | k :: l' => insert_index k (sort_indices l')
  end.

Definition order_keys (names : list jsstring) : list jsstring :=
  sort_indices (filter (λ k, is_index k = true) names)
  ++ filter (λ k, is_index k ≠ true) names.

(** [Object.keys(o)] *)
Definition Object_keys {V} (o : jsobj V) : list jsstring :=
  order_keys (own_names o).


(** ** Data model *)

(** [socket.id].  socket.io draws a fresh non-empty string for every
    connection; only its identity matters here, and being non-empty it is
    always truthy. *)
Abbreviation socket_id := nat.

(** The fields of a [socket] object that the handlers read or write. *)
Record socket := Socket {
  username : option jsstring;     (* socket.username, initially undefined *)
  currentRoom : option jsstring;  (* socket.currentRoom, initially undefined *)
  rooms : gset jsstring           (* rooms entered by socket.join and not left;
                                     the room socket.io names after the
                                     socket's own id is not listed *)
}.

(** A document of the [User] collection, keyed by its unique [username]. *)
Record user_doc := UserDoc {
  socketId : option socket_id;
  isOnline : bool
}.

(** A document of the [Message] collection. *)
Record message_doc := MessageDoc {
  msg_room : jsstring;
  msg_username : jsstring;
  msg_message : jsstring;
  msg_timestamp : Z
}.

Record database := Database {
  users : gmap jsstring user_doc;
  messages : list message_doc
}.

Record state := State {
  activeUsers : jsobj (jsobj socket_id);  (* let activeUsers = {} *)
  sockets : gmap socket_id socket;        (* the open connections *)
  db : database
}.

Definition initial : state :=
  State [] ∅ (Database ∅ []).

(** Where an [emit] goes: [socket.emit], [io.to(room).emit] and
    [socket.to(room).emit]. *)
Inductive target :=
| ToSocket (c : socket_id)
| ToRoom (room : jsstring)
| ToRoomExcept (room : jsstring) (c : socket_id).

(** The emitted event with its argument. *)
Inductive packet :=
| chatHistory (msgs : list message_doc)
| onlineUsers (names : list jsstring)
| message (uname text : jsstring) (timestamp : Z)
| userTyping (uname : jsstring) (isTyping : bool)
| userJoined (text : jsstring)
| userLeft (text : jsstring)
| error (text : jsstring).

Abbreviation output := (target * packet)%type.

(** ** Persistence *)

(** [User.findOneAndUpdate({username}, update, {upsert})] when it resolves:
    both call sites assign both [socketId] and [isOnline]. *)
Definition User_findOneAndUpdate
    (uname : jsstring) (update : user_doc) (upsert : bool) (d : database)
    : database :=
  match users d !! uname with
  | Some _ => Database (<[uname := update]> (users d)) (messages d)
  | None =>
      if upsert then Database (<[uname := update]> (users d)) (messages d)
      else d
  end.

(** [newMessage.save()] when it resolves. *)
Definition Message_save (m : message_doc) (d : database) : database :=
  Database (users d) (messages d ++ [m]).

Fixpoint insert_by_timestamp (m : message_doc) (l : list message_doc)
    : list message_doc :=
  match l with
  | [] => [m]
  | m' :: l' =>
      if (msg_timestamp m <? msg_timestamp m')%Z then m :: l
      else m' :: insert_by_timestamp m l'
  end.

(** [Message.find({room}).sort({timestamp: 1})] when it resolves.  The store
    leaves the order of equal timestamps open; here the one saved later comes
    first. *)
Definition Message_find (room : jsstring) (d : database) : list message_doc :=
  foldr insert_by_timestamp []
        (filter (λ m, msg_room m = room) (messages d)).

(** ** The presence table *)

(** [Object.keys(activeUsers[room] || {})] *)
Definition snapshot (au : jsobj (jsobj socket_id)) (room : jsstring)
    : list jsstring :=
  Object_keys (default [] (obj_get au room)).

(** Lines 123-126 of [joinRoom]:
    [if (!activeUsers[room]) activeUsers[room] = {};
     activeUsers[room][username] = socket.id]. *)
Definition add_active
    (au : jsobj (jsobj socket_id)) (room uname : jsstring) (c : socket_id)
    : jsobj (jsobj socket_id) :=
  let au1 :=
    match obj_get au room with
    | Some _ => au
    | None => obj_set au room []
    end in
  obj_set au1 room (obj_set (default [] (obj_get au1 room)) uname c).

(** The removal written out twice, in [disconnect] (lines 187-193) and in
    [leaveRoom] (lines 211-217):
    [if (activeUsers[room] && activeUsers[room][username]) {
       delete activeUsers[room][username];
       if (Object.keys(activeUsers[room]).length === 0)
         delete activeUsers[room]; }]. *)
Definition remove_active
    (au : jsobj (jsobj socket_id)) (room uname : jsstring)
    : jsobj (jsobj socket_id) :=
  match obj_get au room with
  | Some o =>
      match obj_get o uname with
      | Some _ =>
          let o' := obj_delete o uname in
          if (length (Object_keys o') =? 0)%nat then obj_delete au room
          else obj_set au room o'
      | None => au
      end
  | None => au
  end.

(** ** The event handlers

    Each handler takes the connection [c] it was registered on, the fields
    [s] of that socket when the event arrives, the event's data, the outcome
    of its persistence calls, and the state; it returns the new state and
    the packets emitted, in order. *)

Definition with_socket (st : state) (c : socket_id) (s : socket) : state :=
  State (activeUsers st) (<[c := s]> (sockets st)) (db st).

(** [socket.on('joinRoom', ...)], lines 109-140. *)
Definition joinRoom
    (c : socket_id) (s : socket) (uname room : jsstring)
    (upsert_ok find_ok : bool) (st : state) : state * list output :=
  if upsert_ok then
    let d := User_findOneAndUpdate uname (UserDoc (Some c) true) true (db st) in
    let s' := Socket (Some uname) (Some room) ({[room]} ∪ rooms s) in
    let au := add_active (activeUsers st) room uname c in
    let st' := State au (<[c := s']> (sockets st)) d in
    if find_ok then
      (st',
       [ (ToSocket c, chatHistory (Message_find room d));
         (ToRoom room, onlineUsers (snapshot au room));
         (ToRoomExcept room c, userJoined (uname ++ js " joined the room")) ])
    else
      (st', [ (ToSocket c, error (js "Failed to join room")) ])
  else
    (st, [ (ToSocket c, error (js "Failed to join room")) ]).

(** [socket.on('chatMessage', ...)], lines 143-168; [now] is the value of
    [new Date()]. *)
Definition chatMessage
    (c : socket_id) (room uname text : jsstring) (now : Z) (save_ok : bool)
    (st : state) : state * list output :=
  if negb (truthy (trim text)) then (st, [])
  else if save_ok then
    (State (activeUsers st) (sockets st)
           (Message_save (MessageDoc room uname text now) (db st)),
     [ (ToRoom room, message uname text now) ])
  else
    (st, [ (ToSocket c, error (js "Failed to send message")) ]).

(** [socket.on('typing', ...)], lines 171-174. *)
Definition typing
    (c : socket_id) (room uname : jsstring) (isTyping : bool) (st : state)
    : state * list output :=
  (st, [ (ToRoomExcept room c, userTyping uname isTyping) ]).

(** [socket.on('disconnect', ...)], lines 177-203. *)
Definition disconnect
    (c : socket_id) (s : socket) (update_ok : bool) (st : state)
    : state * list output :=
  match username s, currentRoom s with
  | Some uname, Some room =>
      if truthy uname && truthy room then
        if update_ok then
          let d :=
            User_findOneAndUpdate uname (UserDoc None false) false (db st) in
          let au := remove_active (activeUsers st) room uname in
          (State au (sockets st) d,
           [ (ToRoom room, onlineUsers (snapshot au room));
             (ToRoomExcept room c, userLeft (uname ++ js " left the room")) ])
        else (st, [])
      else (st, [])
  | _, _ => (st, [])
  end.

(** [socket.on('leaveRoom', ...)], lines 206-223. *)
Definition leaveRoom
    (c : socket_id) (s : socket) (uname room : jsstring) (st : state)
    : state * list output :=
  let s' := Socket (username s) (currentRoom s) (rooms s ∖ {[room]}) in
  let au := remove_active (activeUsers st) room uname in
  (State au (<[c := s']> (sockets st)) (db st),
   [ (ToRoom room, onlineUsers (snapshot au room));
     (ToRoomExcept room c, userLeft (uname ++ js " left the room")) ]).

(** ** Events and runs *)

Inductive event :=
| EvConnection (c : socket_id)
| EvJoinRoom (c : socket_id) (uname room : jsstring)
             (upsert_ok find_ok : bool)
| EvChatMessage (c : socket_id) (room uname text : jsstring)
                (now : Z) (save_ok : bool)
| EvTyping (c : socket_id) (room uname : jsstring) (isTyping : bool)
| EvDisconnect (c : socket_id) (update_ok : bool)
| EvLeaveRoom (c : socket_id) (uname room : jsstring).

(** The connection an event arrives on. *)
Definition event_socket (e : event) : socket_id :=
  match e with
  | EvConnection c | EvJoinRoom c _ _ _ _ | EvChatMessage c _ _ _ _ _
  | EvTyping c _ _ _ | EvDisconnect c _ | EvLeaveRoom c _ _ => c
  end.

(** [io.on('connection', ...)]: a new socket with neither [username] nor
    [currentRoom].  An identifier is never handed out twice while open. *)
Definition connection (c : socket_id) (st : state) : state * list output :=
  match sockets st !! c with
  | Some _ => (st, [])
  | None => (with_socket st c (Socket None None ∅), [])
  end.

(** One event, its handler run to completion.  Handlers exist only on open
    connections; after its [disconnect] handler has run the connection is
    gone. *)
Definition step (st : state) (e : event) : state * list output :=
  match e with
  | EvConnection c => connection c st
  | _ =>
      match sockets st !! event_socket e with
      | None => (st, [])
      | Some s =>
          match e with
          | EvConnection _ => (st, [])
          | EvJoinRoom c uname room upsert_ok find_ok =>
              joinRoom c s uname room upsert_ok find_ok st
          | EvChatMessage c room uname text now save_ok =>
              chatMessage c room uname text now save_ok st
          | EvTyping c room uname isTyping => typing c room uname isTyping st
          | EvDisconnect c update_ok =>
              let (st', out) := disconnect c s update_ok st in
              (State (activeUsers st') (delete c (sockets st')) (db st'), out)
          | EvLeaveRoom c uname room => leaveRoom c s uname room st
          end
      end
  end.

(** A sequence of events from a given state, each handled to completion
    before the next one is: the final state and all packets emitted. *)
Fixpoint run (st : state) (tr : list event) : state * list output :=
  match tr with
  | [] => (st, [])
  | e :: tr' =>
      let (st1, out1) := step st e in
      let (st2, out2) := run st1 tr' in
      (st2, out1 ++ out2)
  end.

Definition state_after (tr : list event) : state := (run initial tr).1.


(** ** Reading the state *)

(** The usernames recorded for [room], in creation order. *)
Definition members (au : jsobj (jsobj socket_id)) (room : jsstring)
    : list jsstring :=
  own_names (default [] (obj_get au room)).

(** Every room's object lists a username once. *)
Definition distinct_names (au : jsobj (jsobj socket_id)) : Prop :=
  ∀ room o, obj_get au room = Some o → NoDup (own_names o).

(** Some open connection has [uname] and [room] in its [username] and
    [currentRoom] fields. *)
Definition bound_to (st : state) (room uname : jsstring) : Prop :=
  ∃ c s, sockets st !! c = Some s
         ∧ username s = Some uname ∧ currentRoom s = Some room.

(** As [bound_to], and the connection is still in the socket.io room: it
    has not called [socket.leave(room)] since. *)
Definition joined_to (st : state) (room uname : jsstring) : Prop :=
  ∃ c s, sockets st !! c = Some s
         ∧ username s = Some uname ∧ currentRoom s = Some room
         ∧ room ∈ rooms s.

(** Every room's snapshot is exactly the usernames bound to it. *)
Definition presence_matches_bindings (st : state) : Prop :=
  ∀ room uname,
    uname ∈ snapshot (activeUsers st) room ↔ bound_to st room uname.

(** No username is listed under two rooms. *)
Definition one_room_per_username (st : state) : Prop :=
  ∀ uname room1 room2,
    uname ∈ snapshot (activeUsers st) room1 →
    uname ∈ snapshot (activeUsers st) room2 →
    room1 = room2.

(** ** Orderly clients

    The handlers trust the data they are sent.  A run is orderly when the
    clients keep to this protocol:
    - usernames and room names are non-empty;
    - a connection joins only while it is in no room (or repeats the join
      it is already in), and no other open connection carries the same
      username and room;
    - [leaveRoom] names the connection's own username and room;
    - the write of the [disconnect] handler succeeds. *)

Definition in_no_room_or_same (s : socket) (uname room : jsstring) : bool :=
  bool_decide (rooms s = ∅)
  || bool_decide (username s = Some uname ∧ currentRoom s = Some room).

Definition binding_free
    (st : state) (c : socket_id) (uname room : jsstring) : bool :=
  bool_decide
    (map_Forall
       (λ c' s', c' = c
                 ∨ ¬ (username s' = Some uname ∧ currentRoom s' = Some room))
       (sockets st)).

Definition orderly (st : state) (e : event) : bool :=
  match e with
  | EvJoinRoom c uname room _ _ =>
      truthy uname && truthy room
      && match sockets st !! c with
         | Some s =>
             in_no_room_or_same s uname room && binding_free st c uname room
         | None => true
         end
  | EvLeaveRoom c uname room =>
      match sockets st !! c with
      | Some s =>
          bool_decide (username s = Some uname ∧ currentRoom s = Some room)
      | None => true
      end
  | EvDisconnect _ update_ok => update_ok
  | _ => true
  end.

(** Every event of the run passes the check [g] in the state it arrives
    in. *)
Fixpoint follows (g : state → event → bool) (st : state) (tr : list event)
    : bool :=
  match tr with
  | [] => true
  | e :: tr' => g st e && follows g (step st e).1 tr'
  end.

Definition orderly_run : state → list event → bool := follows orderly.

(** No open connection other than [c] uses [uname]. *)
Definition username_free (st : state) (c : socket_id) (uname : jsstring)
    : bool :=
  bool_decide
    (map_Forall (λ c' s', c' = c ∨ username s' ≠ Some uname) (sockets st)).

(** Orderly, and a join never takes a username that another open connection
    uses. *)
Definition orderly_unique (st : state) (e : event) : bool :=
  orderly st e
  && match e with
     | EvJoinRoom c uname _ _ _ => username_free st c uname
     | _ => true
     end.

Definition orderly_unique_run : state → list event → bool :=
  follows orderly_unique.

(** What orderly runs maintain. *)
Record orderly_inv (st : state) : Prop := OrderlyInv {
  inv_presence :
    ∀ room uname,
      uname ∈ members (activeUsers st) room ↔ joined_to st room uname;
  inv_binding :
    ∀ c1 s1 c2 s2 uname room,
      sockets st !! c1 = Some s1 → sockets st !! c2 = Some s2 →
      username s1 = Some uname → currentRoom s1 = Some room →
      username s2 = Some uname → currentRoom s2 = Some room →
      c1 = c2;
  inv_rooms :
    ∀ c s room,
      sockets st !! c = Some s → room ∈ rooms s → currentRoom s = Some room;
  inv_names :
    ∀ c s,
      sockets st !! c = Some s →
      (∀ uname, username s = Some uname → uname ≠ [])
      ∧ (∀ room, currentRoom s = Some room → room ≠ [])
}.

Definition usernames_distinct (st : state) : Prop :=
  ∀ c1 s1 c2 s2 uname,
    sockets st !! c1 = Some s1 → sockets st !! c2 = Some s2 →
    username s1 = Some uname → username s2 = Some uname →
    c1 = c2.

(** ** Example runs *)

Definition alice : jsstring := js "alice".
Definition bob : jsstring := js "bob".
Definition general : jsstring := js "general".
Definition random : jsstring := js "random".

(** One connection, not in any room. *)
Definition lobby : state := state_after [EvConnection 1].

(** One connection that joined [general] as [alice]. *)
Definition alice_in_general : state :=
  state_after [EvConnection 1; EvJoinRoom 1 alice general true true].

(** The same connection joins [general] and then [random]. *)
Definition alice_switched : state :=
  state_after [EvConnection 1;
               EvJoinRoom 1 alice general true true;
               EvJoinRoom 1 alice random true true].

(** The connection of [alice_in_general] after an explicit [leaveRoom]. *)
Definition alice_left : state :=
  state_after [EvConnection 1;
               EvJoinRoom 1 alice general true true;
               EvLeaveRoom 1 alice general].

(** ** The REST routes

    The three routes read and write the [Room] and [Message] collections.
    A route handler gets the outcome of each query it awaits and returns the
    response it sends; [POST /api/rooms] also returns the new content of the
    [Room] collection. *)

(** How an awaited query ends; [error.message] is what the routes report. *)
Inductive outcome :=
| Resolves
| Rejects (message : jsstring).

(** A document of the [Room] collection. *)
Record room_doc := RoomDoc {
  room_name : jsstring;
  roomId : jsstring;
  room_createdAt : Z
}.

(** What [res.json] is given. *)
Inductive body :=
| RoomList (docs : list room_doc)
| RoomCreated (doc : room_doc)
| MessageList (docs : list message_doc)
| ErrorBody (text : jsstring).

(** [res.json(b)] answers with status 200, [res.status(n).json(b)] with
    [n]. *)
Record response := Response {
  status : nat;
  sent : body
}.

(** [Room.findOne({ name })] when it resolves. *)
Fixpoint Room_findOne (name : jsstring) (coll : list room_doc)
    : option room_doc :=
  match coll with
  | [] => None
  | r :: coll' =>
      if decide (room_name r = name) then Some r else Room_findOne name coll'
  end.

Fixpoint insert_by_createdAt (r : room_doc) (l : list room_doc)
    : list room_doc :=
  match l with
  | [] => [r]
  | r' :: l' =>
      if (room_createdAt r' <=? room_createdAt r)%Z then r :: l
      else r' :: insert_by_createdAt r l'
  end.

(** [Room.find().sort({ createdAt: -1 })] when it resolves: newest first;
    among equal dates the one saved earlier comes first. *)
Definition Room_find_newest_first (coll : list room_doc) : list room_doc :=
  foldr insert_by_createdAt [] coll.

(** [app.get('/api/rooms', ...)], lines 65-72. *)
Definition get_rooms (find : outcome) (coll : list room_doc) : response :=
  match find with
  | Resolves => Response 200 (RoomList (Room_find_newest_first coll))
  | Rejects msg => Response 500 (ErrorBody msg)
  end.

(** [app.post('/api/rooms', ...)], lines 74-92; [uuid] is the value of
    [uuidv4()] and [now] the default of [createdAt], both taken when the
    document is built. *)
Definition post_rooms
    (name uuid : jsstring) (now : Z) (findOne save : outcome)
    (coll : list room_doc) : list room_doc * response :=
  match findOne with
  | Rejects msg => (coll, Response 500 (ErrorBody msg))
  | Resolves =>
      match Room_findOne name coll with
      | Some _ => (coll, Response 400 (ErrorBody (js "Room already exists")))
      | None =>
          let room := RoomDoc name uuid now in
          match save with
          | Resolves => (coll ++ [room], Response 200 (RoomCreated room))
          | Rejects msg => (coll, Response 500 (ErrorBody msg))
          end
      end
  end.

(** [app.get('/api/messages/:room', ...)], lines 94-102. *)
Definition get_messages (room : jsstring) (find : outcome) (d : database)
    : response :=
  match find with
  | Resolves => Response 200 (MessageList (Message_find room d))
  | Rejects msg => Response 500 (ErrorBody msg)
  end.

(** One [POST /api/rooms] request with everything its handler depends on. *)
Record room_post := RoomPost {
  post_name : jsstring;
  post_uuid : jsstring;
  post_now : Z;
  post_findOne : outcome;
  post_save : outcome
}.

Definition post_room (coll : list room_doc) (p : room_post)
    : list room_doc * response :=
  post_rooms (post_name p) (post_uuid p) (post_now p)
             (post_findOne p) (post_save p) coll.

(** The [Room] collection after a sequence of posts. *)
Definition rooms_after (coll : list room_doc) (ps : list room_post)
    : list room_doc :=
  foldl (λ coll p, (post_room coll p).1) coll ps.

(** ** Names that collide with [Object.prototype]

    [activeUsers] and the objects stored in it are object literals, so
    [o[k]] for one of these names finds the inherited property, and
    [o['__proto__'] = v] creates no own property.  The handlers behave as
    modelled for all other names. *)

Definition inherited_names : list jsstring :=
  [ js "constructor"; js "__defineGetter__"; js "__defineSetter__";
    js "hasOwnProperty"; js "__lookupGetter__"; js "__lookupSetter__";
    js "isPrototypeOf"; js "propertyIsEnumerable"; js "toString";
    js "valueOf"; js "__proto__"; js "toLocaleString" ].

Definition plain (name : jsstring) : bool :=
  bool_decide (name ∉ inherited_names).

Definition plain_opt (o : option jsstring) : bool :=
  match o with Some name => plain name | None => true end.

(** The names the handler of [e] uses as keys of [activeUsers] are plain:
    those of the data of [joinRoom] and [leaveRoom], and the socket's own
    for [disconnect]. *)
Definition plain_event (st : state) (e : event) : bool :=
  match e with
  | EvJoinRoom _ uname room _ _ | EvLeaveRoom _ uname room =>
      plain uname && plain room
  | EvDisconnect c _ =>
      match sockets st !! c with
      | Some s => plain_opt (username s) && plain_opt (currentRoom s)
      | None => true
      end
  | _ => true
  end.

(** ** The [typing] handler on raw data

    [data] is [None] when the event arrives without an object as its
    argument ([undefined] or [null]): the destructuring at line 172 then
    throws a [TypeError], which nothing catches.  The result [None] stands
    for that uncaught exception. *)
Definition typing_listener
    (c : socket_id) (data : option (jsstring * jsstring * bool)) (st : state)
    : option (state * list output) :=
  match data with
  | Some (room, uname, isTyping) => Some (typing c room uname isTyping st)
  | None => None
  end.

(** ** Further readings of the state *)


(** No room key is kept for an empty object, and no room key occurs
    twice. *)
Definition no_empty_rooms (au : jsobj (jsobj socket_id)) : Prop :=
  NoDup (own_names au) ∧ ∀ room o, obj_get au room = Some o → o ≠ [].

(** The room whose entry the handler of [e] may edit. *)
Definition touched_room (st : state) (e : event) : option jsstring :=
  match e with
  | EvJoinRoom _ _ room _ _ | EvLeaveRoom _ _ room => Some room
  | EvDisconnect c _ => sockets st !! c ≫= currentRoom
  | _ => None
  end.

(** The run contains a [joinRoom] for [room] and [uname] whose upsert
    succeeded. *)
Definition joined_in (tr : list event) (room uname : jsstring) : Prop :=
  ∃ c find_ok, EvJoinRoom c uname room true find_ok ∈ tr.

Definition blank (text : jsstring) : Prop :=
  Forall (λ u, is_white u = true) text.

(** * Properties *)

(** ** The model at work *)

Example trim_inner_space_kept : trim (js "  a b  ") = js "a b".
Proof. reflexivity. Qed.

Example Object_keys_indices_first :
  Object_keys [ (js "bob", 1%nat); (js "10", 2%nat); (js "9", 3%nat);
                (js "007", 4%nat); (js "alice", 5%nat) ]
  = [ js "9"; js "10"; js "bob"; js "007"; js "alice" ].
Proof. reflexivity. Qed.

Example join_then_leave_empties_table :
  activeUsers alice_in_general = [ (general, [ (alice, 1%nat) ]) ]
  ∧ activeUsers alice_left = [].
Proof. split; reflexivity. Qed.

Example join_outputs :
  (step lobby (EvJoinRoom 1 alice general true true)).2
  = [ (ToSocket 1%nat, chatHistory []);
      (ToRoom general, onlineUsers [alice]);
      (ToRoomExcept general 1%nat, userJoined (js "alice joined the room")) ].
Proof. reflexivity. Qed.

(** ** Strings *)

Lemma trim_start_white (s : jsstring) :
  Forall (λ c, is_white c = true) s → trim_start s = [].
Proof.
  induction 1 as [|c s Hc _ IH]; simpl; [done|]. by rewrite Hc.
Qed.

Lemma trim_white (s : jsstring) :
  Forall (λ c, is_white c = true) s → trim s = [].
Proof.
  intros H. unfold trim, trim_end. by rewrite (trim_start_white s H).
Qed.

Lemma truthy_nonempty (s : jsstring) : truthy s = true ↔ s ≠ [].
Proof. destruct s; simpl; split; congruence. Qed.

(** ** Objects *)

Section ObjectFacts.
Context {V : Type}.
Implicit Types (o : jsobj V) (k : jsstring) (v : V).

Lemma obj_get_set o k v k' :
  obj_get (obj_set o k v) k' = if decide (k = k') then Some v else obj_get o k'.
Proof.
  induction o as [|[k0 v0] o IH]; simpl.
  - repeat case_decide; congruence.
  - destruct (decide (k0 = k)) as [->|Hne]; simpl.
    + repeat case_decide; congruence.
    + rewrite IH. repeat case_decide; congruence.
Qed.

Lemma obj_get_set_eq o k v : obj_get (obj_set o k v) k = Some v.
Proof. rewrite obj_get_set. by rewrite decide_True. Qed.

Lemma obj_get_set_ne o k v k' :
  k ≠ k' → obj_get (obj_set o k v) k' = obj_get o k'.
Proof. intros. rewrite obj_get_set. by rewrite decide_False. Qed.

Lemma obj_get_delete o k k' :
  obj_get (obj_delete o k) k' = if decide (k = k') then None else obj_get o k'.
Proof.
  unfold obj_delete. induction o as [|[k0 v0] o IH]; simpl.
  - by case_decide.
  - rewrite filter_cons. simpl. destruct (decide (k0 ≠ k)) as [Hne|Heq]; simpl.
    + rewrite IH. repeat case_decide; congruence.
    + apply dec_stable in Heq. subst k0. rewrite IH.
      repeat case_decide; congruence.
Qed.

Lemma obj_get_is_Some o k : is_Some (obj_get o k) ↔ k ∈ own_names o.
Proof.
  unfold own_names. induction o as [|[k0 v0] o IH]; simpl.
  - split; [by intros [? ?]|by intros ?%elem_of_nil].
  - rewrite elem_of_cons. destruct (decide (k0 = k)) as [Hk|Hk].
    + split; eauto.
    + rewrite IH. naive_solver.
Qed.

Lemma obj_get_None o k : obj_get o k = None ↔ k ∉ own_names o.
Proof. rewrite <- obj_get_is_Some, eq_None_not_Some. done. Qed.

Lemma own_names_set_present o k v :
  k ∈ own_names o → own_names (obj_set o k v) = own_names o.
Proof.
  unfold own_names. induction o as [|[k0 v0] o IH]; simpl.
  - by intros ?%elem_of_nil.
  - intros Hin. case_decide; subst; simpl; [done|].
    f_equal. apply IH. apply elem_of_cons in Hin as [?|?]; [congruence|done].
Qed.

Lemma own_names_set_absent o k v :
  k ∉ own_names o → own_names (obj_set o k v) = own_names o ++ [k].
Proof.
  unfold own_names. induction o as [|[k0 v0] o IH]; simpl; [done|].
  intros Hin. apply not_elem_of_cons in Hin as [? ?].
  rewrite decide_False by done. simpl. f_equal. by apply IH.
Qed.

Lemma elem_of_own_names_set o k v k' :
  k' ∈ own_names (obj_set o k v) ↔ k' = k ∨ k' ∈ own_names o.
Proof.
  rewrite <- !obj_get_is_Some, obj_get_set.
  destruct (decide (k = k')) as [Hk|Hk]; [split; eauto|naive_solver].
Qed.

Lemma elem_of_own_names_delete o k k' :
  k' ∈ own_names (obj_delete o k) ↔ k' ≠ k ∧ k' ∈ own_names o.
Proof.
  rewrite <- !obj_get_is_Some, obj_get_delete.
  destruct (decide (k = k')) as [Hk|Hk]; [|naive_solver].
  split; [by intros [? ?]|naive_solver].
Qed.

Lemma own_names_set_NoDup o k v :
  NoDup (own_names o) → NoDup (own_names (obj_set o k v)).
Proof.
  intros Hnd. destruct (decide (k ∈ own_names o)) as [Hin|Hin].
  - by rewrite own_names_set_present.
  - rewrite own_names_set_absent by done.
    apply NoDup_app. split_and!; [done| |apply NoDup_singleton].
    intros x Hx ->%list_elem_of_singleton. done.
Qed.

Lemma own_names_delete_NoDup o k :
  NoDup (own_names o) → NoDup (own_names (obj_delete o k)).
Proof.
  unfold own_names, obj_delete. induction o as [|[k0 v0] o IH]; simpl; [done|].
  rewrite NoDup_cons. intros [Hk0 Hnd]. rewrite filter_cons.
  case_decide; simpl; [|by apply IH].
  apply NoDup_cons. split; [|by apply IH].
  intros Hin. apply Hk0.
  apply (elem_of_own_names_delete o k k0) in Hin. by destruct Hin.
Qed.

End ObjectFacts.

(** [Object.keys] lists exactly the own names, each once. *)

Lemma insert_index_perm k l : insert_index k l ≡ₚ k :: l.
Proof.
  induction l as [|k' l IH]; simpl; [done|].
  destruct (index_value k <=? index_value k'); [done|].
  rewrite IH. apply Permutation_swap.
Qed.

Lemma sort_indices_perm l : sort_indices l ≡ₚ l.
Proof.
  induction l as [|k l IH]; simpl; [done|].
  rewrite insert_index_perm. by rewrite IH.
Qed.

Lemma order_keys_perm l : order_keys l ≡ₚ l.
Proof.
  unfold order_keys. rewrite sort_indices_perm.
  induction l as [|k l IH]; simpl; [done|].
  rewrite !filter_cons. destruct (decide (is_index k = true)) as [Hk|Hk].
  - rewrite decide_False by (intros ?; done). simpl. by rewrite IH.
  - rewrite decide_True by done.
    rewrite <- Permutation_middle. by rewrite IH.
Qed.

Lemma Object_keys_perm {V} (o : jsobj V) : Object_keys o ≡ₚ own_names o.
Proof. apply order_keys_perm. Qed.

Lemma elem_of_Object_keys {V} (o : jsobj V) k :
  k ∈ Object_keys o ↔ k ∈ own_names o.
Proof. by rewrite Object_keys_perm. Qed.

Lemma Object_keys_NoDup {V} (o : jsobj V) :
  NoDup (own_names o) → NoDup (Object_keys o).
Proof. by rewrite Object_keys_perm. Qed.

Lemma Object_keys_empty {V} (o : jsobj V) :
  (length (Object_keys o) =? 0)%nat = true ↔ o = [].
Proof.
  rewrite Nat.eqb_eq, (Permutation_length (Object_keys_perm o)).
  unfold own_names. rewrite length_fmap. by destruct o.
Qed.


(** ** Presence table *)

Lemma elem_of_snapshot au room uname :
  uname ∈ snapshot au room ↔ uname ∈ members au room.
Proof. apply elem_of_Object_keys. Qed.

Lemma obj_get_add_active au room uname c room' :
  obj_get (add_active au room uname c) room' =
  if decide (room = room')
  then Some (obj_set (default [] (obj_get au room)) uname c)
  else obj_get au room'.
Proof.
  unfold add_active. rewrite obj_get_set.
  destruct (decide (room = room')) as [<-|Hne].
  - destruct (obj_get au room) as [o|] eqn:Ho; [by rewrite Ho|].
    by rewrite obj_get_set_eq.
  - destruct (obj_get au room); [done|]. by rewrite obj_get_set_ne.
Qed.

Lemma elem_of_members_add au room uname c room' uname' :
  uname' ∈ members (add_active au room uname c) room'
  ↔ (room' = room ∧ uname' = uname) ∨ uname' ∈ members au room'.
Proof.
  unfold members. rewrite obj_get_add_active.
  destruct (decide (room = room')) as [<-|Hne]; simpl.
  - rewrite elem_of_own_names_set. naive_solver.
  - naive_solver.
Qed.

Lemma obj_get_remove_active au room uname room' :
  room ≠ room' →
  obj_get (remove_active au room uname) room' = obj_get au room'.
Proof.
  intros Hne. unfold remove_active.
  destruct (obj_get au room) as [o|]; [|done].
  destruct (obj_get o uname); [|done].
  destruct (length _ =? 0)%nat.
  - rewrite obj_get_delete. by rewrite decide_False.
  - by rewrite obj_get_set_ne.
Qed.

Lemma members_remove_active_same au room uname :
  members (remove_active au room uname) room
  = own_names (obj_delete (default [] (obj_get au room)) uname).
Proof.
  unfold members, remove_active.
  destruct (obj_get au room) as [o|] eqn:Ho; simpl; [|by rewrite Ho].
  destruct (obj_get o uname) as [i|] eqn:Hu.
  - destruct (length _ =? 0)%nat eqn:Hlen.
    + apply Object_keys_empty in Hlen. rewrite Hlen.
      rewrite obj_get_delete. by rewrite decide_True.
    + by rewrite obj_get_set_eq.
  - rewrite Ho. simpl. apply obj_get_None in Hu.
    unfold own_names, obj_delete in *. f_equal.
    clear Ho. induction o as [|[k v] o IH]; [done|].
    simpl in Hu. apply not_elem_of_cons in Hu as [? ?].
    rewrite filter_cons. simpl. rewrite decide_True by done.
    f_equal. by apply IH.
Qed.

Lemma elem_of_members_remove au room uname room' uname' :
  uname' ∈ members (remove_active au room uname) room'
  ↔ uname' ∈ members au room' ∧ ¬ (room' = room ∧ uname' = uname).
Proof.
  destruct (decide (room = room')) as [<-|Hne].
  - rewrite members_remove_active_same, elem_of_own_names_delete.
    unfold members. naive_solver.
  - unfold members. rewrite obj_get_remove_active by done. naive_solver.
Qed.

Lemma remove_active_absent au room uname :
  uname ∉ members au room → remove_active au room uname = au.
Proof.
  unfold members, remove_active. intros Hout.
  destruct (obj_get au room) as [o|]; [|done]. simpl in Hout.
  apply obj_get_None in Hout. by rewrite Hout.
Qed.

(** ** Chat messages *)

(** C7.  A [chatMessage] whose trimmed text is not empty: when saving the
    message fails, the only packet is an [error] emitted on the sender's own
    socket ([socket.emit]) and nothing is stored; when saving succeeds, the
    message is stored and the only packet is the [message] with username,
    text and the server's timestamp, emitted to the room
    ([io.to(room).emit]). *)
Theorem chatMessage_persist_then_broadcast
    st c s room uname text now save_ok :
  sockets st !! c = Some s →
  trim text ≠ [] →
  step st (EvChatMessage c room uname text now save_ok) =
    (if save_ok
     then (State (activeUsers st) (sockets st)
                 (Message_save (MessageDoc room uname text now) (db st)),
           [ (ToRoom room, message uname text now) ])
     else (st, [ (ToSocket c, error (js "Failed to send message")) ])).
Proof.
  intros Hc Htext. simpl. rewrite Hc. unfold chatMessage.
  apply truthy_nonempty in Htext. by rewrite Htext.
Qed.

Lemma chatMessage_persist_then_broadcast_witness :
  step alice_in_general
       (EvChatMessage 1 general alice (js " hi ") 1700000000000 false)
  = (alice_in_general, [ (ToSocket 1%nat, error (js "Failed to send message")) ])
  ∧ (step alice_in_general
          (EvChatMessage 1 general alice (js " hi ") 1700000000000 true)).2
    = [ (ToRoom general, message alice (js " hi ") 1700000000000) ].
Proof.
  split.
  - apply (chatMessage_persist_then_broadcast
             alice_in_general 1%nat
             (Socket (Some alice) (Some general) {[general]})
             general alice (js " hi ") 1700000000000 false);
      [reflexivity | vm_compute; discriminate].
  - rewrite (chatMessage_persist_then_broadcast
               alice_in_general 1%nat
               (Socket (Some alice) (Some general) {[general]})
               general alice (js " hi ") 1700000000000 true);
      [reflexivity | reflexivity | vm_compute; discriminate].
Defined.

(** C8.  A [chatMessage] whose text is empty or all whitespace is dropped:
    the state, stored messages included, is what it was and nothing is
    emitted, neither a [message] nor an [error]. *)
Theorem chatMessage_blank_dropped st c room uname text now save_ok :
  Forall (λ u, is_white u = true) text →
  step st (EvChatMessage c room uname text now save_ok) = (st, []).
Proof.
  intros Hblank. simpl. destruct (sockets st !! c); [|done].
  unfold chatMessage. by rewrite (trim_white text Hblank).
Qed.

Lemma chatMessage_blank_dropped_witness :
  step alice_in_general
       (EvChatMessage 1 general alice (js "   ") 1700000000000 true)
  = (alice_in_general, []).
Proof.
  apply chatMessage_blank_dropped. vm_compute. repeat constructor.
Defined.

(** ** Typing *)

(** A [typing] event that arrives without data: the listener throws. *)
Lemma typing_without_data_throws : typing_listener 1 None lobby = None.
Proof. reflexivity. Qed.

(** C9, amended.  A [typing] event whose data is an object with [room],
    [username] and [isTyping], on any open connection, joined or not, in any
    state: the listener does not throw, it leaves the whole state (presence
    table, every connection's fields, stored records) as it was, and it
    emits exactly one packet, [userTyping] to the room except the sender,
    hence no [error]. *)
Theorem typing_only_emits st c s room uname isTyping :
  sockets st !! c = Some s →
  typing_listener c (Some (room, uname, isTyping)) st
    = Some (step st (EvTyping c room uname isTyping))
  ∧ step st (EvTyping c room uname isTyping)
    = (st, [ (ToRoomExcept room c, userTyping uname isTyping) ]).
Proof. intros Hc. simpl. by rewrite Hc. Qed.

Lemma typing_only_emits_witness :
  step lobby (EvTyping 1 general alice true)
  = (lobby, [ (ToRoomExcept general 1%nat, userTyping alice true) ]).
Proof.
  apply (typing_only_emits lobby 1%nat (Socket None None ∅) general alice true).
  reflexivity.
Defined.

(** ** Joining twice *)

Lemma snapshot_add_active_present au room uname c :
  uname ∈ members au room →
  snapshot (add_active au room uname c) room = snapshot au room.
Proof.
  intros Hin. unfold snapshot, Object_keys.
  rewrite obj_get_add_active, decide_True by done. simpl.
  by rewrite own_names_set_present.
Qed.

Lemma distinct_names_add au room uname c :
  distinct_names au → distinct_names (add_active au room uname c).
Proof.
  intros Hau room' o. rewrite obj_get_add_active.
  destruct (decide (room = room')) as [<-|Hne]; [|apply Hau].
  intros [= <-]. apply own_names_set_NoDup.
  destruct (obj_get au room) as [o|] eqn:Ho; simpl.
  - by eapply Hau.
  - apply NoDup_nil_2.
Qed.

Lemma distinct_names_remove au room uname :
  distinct_names au → distinct_names (remove_active au room uname).
Proof.
  intros Hau room' o'. unfold remove_active.
  destruct (obj_get au room) as [o|] eqn:Ho; [|apply Hau].
  destruct (obj_get o uname); [|apply Hau].
  destruct (length _ =? 0)%nat.
  - rewrite obj_get_delete. case_decide; [done|apply Hau].
  - rewrite obj_get_set. case_decide; [|apply Hau].
    intros [= <-]. apply own_names_delete_NoDup. by eapply Hau.
Qed.

(** What one event can do to [activeUsers]. *)
Lemma step_activeUsers st e :
  activeUsers (step st e).1 = activeUsers st
  ∨ (∃ room uname c,
       activeUsers (step st e).1 = add_active (activeUsers st) room uname c)
  ∨ (∃ room uname,
       activeUsers (step st e).1 = remove_active (activeUsers st) room uname).
Proof.
  destruct e as [c|c uname room [] fok|c room uname text now sok
                 |c room uname b|c uok|c uname room]; simpl.
  - unfold connection. destruct (sockets st !! c); by left.
  - destruct (sockets st !! c); [|by left]. right; left.
    exists room, uname, c. by destruct fok.
  - destruct (sockets st !! c); by left.
  - destruct (sockets st !! c); [|by left]. unfold chatMessage.
    destruct (negb _); [by left|]. destruct sok; by left.
  - destruct (sockets st !! c); by left.
  - destruct (sockets st !! c) as [s|]; [|by left]. unfold disconnect.
    destruct (username s) as [u|]; [|by left].
    destruct (currentRoom s) as [r|]; [|by left].
    destruct (truthy u && truthy r); [|by left].
    destruct uok; [|by left]. right; right. by exists r, u.
  - destruct (sockets st !! c); [|by left]. right; right. by exists room, uname.
Qed.

Lemma step_distinct_names st e :
  distinct_names (activeUsers st) → distinct_names (activeUsers (step st e).1).
Proof.
  intros Hau.
  destruct (step_activeUsers st e) as [->|[(r & u & c & ->)|(r & u & ->)]];
    [done|by apply distinct_names_add|by apply distinct_names_remove].
Qed.

Lemma run_distinct_names st tr :
  distinct_names (activeUsers st) → distinct_names (activeUsers (run st tr).1).
Proof.
  revert st. induction tr as [|e tr IH]; intros st Hau; simpl; [done|].
  pose proof (step_distinct_names st e Hau) as H1.
  destruct (step st e) as [st1 out1]. specialize (IH st1 H1).
  by destruct (run st1 tr).
Qed.

Lemma snapshot_NoDup au room : distinct_names au → NoDup (snapshot au room).
Proof.
  intros Hau. unfold snapshot. apply Object_keys_NoDup.
  destruct (obj_get au room) as [o|] eqn:Ho; simpl.
  - by eapply Hau.
  - apply NoDup_nil_2.
Qed.

Lemma step_joinRoom_ok st c s uname room find_ok :
  sockets st !! c = Some s →
  (step st (EvJoinRoom c uname room true find_ok)).1 =
    State (add_active (activeUsers st) room uname c)
          (<[c := Socket (Some uname) (Some room) ({[room]} ∪ rooms s)]>
             (sockets st))
          (User_findOneAndUpdate uname (UserDoc (Some c) true) true (db st)).
Proof. intros Hc. simpl. rewrite Hc. simpl. by destruct find_ok. Qed.

(** C10.  In every state the server can reach, no room's snapshot lists a
    username twice; and when a successful [joinRoom] for a room and username
    is followed by a second successful [joinRoom] for the same room and
    username (from the same or from another open connection), the room's
    snapshot after the second equals the snapshot after the first. *)
Theorem joinRoom_twice_same_snapshot :
  (∀ tr room, NoDup (snapshot (activeUsers (state_after tr)) room))
  ∧ (∀ st c1 s1 c2 s2 uname room,
       sockets st !! c1 = Some s1 →
       sockets st !! c2 = Some s2 →
       let st1 := (step st (EvJoinRoom c1 uname room true true)).1 in
       let st2 := (step st1 (EvJoinRoom c2 uname room true true)).1 in
       snapshot (activeUsers st2) room = snapshot (activeUsers st1) room).
Proof.
  split.
  - intros tr room. apply snapshot_NoDup, run_distinct_names.
    intros r o. done.
  - intros st c1 s1 c2 s2 uname room H1 H2 st1 st2.
    assert (is_Some (sockets st1 !! c2)) as [s2' H2'].
    { unfold st1. rewrite (step_joinRoom_ok _ _ _ _ _ _ H1). simpl.
      rewrite lookup_insert. case_decide; eauto. }
    unfold st2. rewrite (step_joinRoom_ok _ _ _ _ _ _ H2'). simpl.
    apply snapshot_add_active_present.
    unfold st1. rewrite (step_joinRoom_ok _ _ _ _ _ _ H1). simpl.
    apply elem_of_members_add. by left.
Qed.

Lemma joinRoom_twice_same_snapshot_witness :
  snapshot
    (activeUsers
       (step (step lobby (EvJoinRoom 1 alice general true true)).1
             (EvJoinRoom 1 alice general true true)).1) general
  = snapshot
      (activeUsers (step lobby (EvJoinRoom 1 alice general true true)).1)
      general.
Proof.
  apply (proj2 joinRoom_twice_same_snapshot
               lobby 1%nat (Socket None None ∅) 1%nat (Socket None None ∅)
               alice general); reflexivity.
Defined.

(** ** Failures while joining *)




(** ** Disconnecting *)


Lemma not_elem_of_members_remove au room uname :
  uname ∉ members (remove_active au room uname) room.
Proof. rewrite elem_of_members_remove. naive_solver. Qed.

Lemma step_disconnect_bound st c s uname room update_ok :
  sockets st !! c = Some s →
  username s = Some uname → currentRoom s = Some room →
  uname ≠ [] → room ≠ [] →
  step st (EvDisconnect c update_ok) =
    if update_ok
    then (State (remove_active (activeUsers st) room uname)
                (delete c (sockets st))
                (User_findOneAndUpdate uname (UserDoc None false) false
                                       (db st)),
          [ (ToRoom room,
             onlineUsers
               (snapshot (remove_active (activeUsers st) room uname) room));
            (ToRoomExcept room c, userLeft (uname ++ js " left the room")) ])
    else (State (activeUsers st) (delete c (sockets st)) (db st), []).
Proof.
  intros Hc Hu Hr Hune Hrne. simpl. rewrite Hc. unfold disconnect.
  rewrite Hu, Hr.
  apply truthy_nonempty in Hune, Hrne. rewrite Hune, Hrne. simpl.
  by destruct update_ok.
Qed.



(** ** Leaving a room *)

Lemma step_leaveRoom st c s uname room :
  sockets st !! c = Some s →
  step st (EvLeaveRoom c uname room) =
    (State (remove_active (activeUsers st) room uname)
           (<[c := Socket (username s) (currentRoom s) (rooms s ∖ {[room]})]>
              (sockets st))
           (db st),
     [ (ToRoom room,
        onlineUsers
          (snapshot (remove_active (activeUsers st) room uname) room));
       (ToRoomExcept room c, userLeft (uname ++ js " left the room")) ]).
Proof. intros Hc. simpl. by rewrite Hc. Qed.




(** ** Cleaning up a username that is not listed *)




(** ** Orderly runs *)

Section Follows.
Variable g : state → event → bool.
Variable P : state → Prop.
Hypothesis step_keeps : ∀ st e, g st e = true → P st → P (step st e).1.

Lemma follows_invariant tr st :
  P st → follows g st tr = true → P (run st tr).1.
Proof.
  revert st. induction tr as [|e tr IH]; intros st HP Hg; simpl in *; [done|].
  apply andb_true_iff in Hg as [Hge Hrest].
  specialize (IH (step st e).1 (step_keeps st e Hge HP) Hrest).
  destruct (step st e) as [st1 out1]. simpl in IH.
  by destruct (run st1 tr).
Qed.

End Follows.

Lemma orderly_joinRoom st c s uname room upsert_ok find_ok :
  sockets st !! c = Some s →
  orderly st (EvJoinRoom c uname room upsert_ok find_ok) = true →
  uname ≠ [] ∧ room ≠ []
  ∧ (rooms s = ∅ ∨ username s = Some uname ∧ currentRoom s = Some room)
  ∧ (∀ c' s', sockets st !! c' = Some s' → c' ≠ c →
              ¬ (username s' = Some uname ∧ currentRoom s' = Some room)).
Proof.
  intros Hc. simpl. rewrite Hc. unfold in_no_room_or_same, binding_free.
  rewrite !andb_true_iff, orb_true_iff, !bool_decide_eq_true, !truthy_nonempty.
  intros [[Hu Hr] [Hs Hfree]]. split_and!; try done.
  intros c' s' Hc' Hne. by destruct (Hfree c' s' Hc').
Qed.

Lemma orderly_leaveRoom st c s uname room :
  sockets st !! c = Some s →
  orderly st (EvLeaveRoom c uname room) = true →
  username s = Some uname ∧ currentRoom s = Some room.
Proof. intros Hc. simpl. rewrite Hc. by rewrite bool_decide_eq_true. Qed.

Lemma orderly_inv_initial : orderly_inv initial.
Proof.
  split; simpl.
  - intros room uname. unfold members, joined_to. simpl. split.
    + by intros ?%elem_of_nil.
    + by intros (c & s & Hc & _).
  - intros c1 s1 c2 s2 uname room Hc1. done.
  - intros c s room Hc. done.
  - intros c s Hc. done.
Qed.

Lemma connection_orderly_inv st c :
  orderly_inv st → orderly_inv (connection c st).1.
Proof.
  intros [HP HB HR HN]. unfold connection.
  destruct (sockets st !! c) as [s|] eqn:Hc; [done|].
  split; simpl.
  - intros room uname. rewrite HP. unfold joined_to. simpl.
    setoid_rewrite lookup_insert_Some. split.
    + intros (c0 & s0 & Hc0 & H). exists c0, s0. split; [|done].
      right. split; [congruence|done].
    + intros (c0 & s0 & [[_ <-]|[_ Hc0]] & Hu & H); [done|]. by exists c0, s0.
  - intros c1 s1 c2 s2 uname room.
    rewrite !lookup_insert_Some.
    intros [[_ <-]|[_ H1]] [[_ <-]|[_ H2]]; try done. by eapply HB.
  - intros c0 s0 room. rewrite lookup_insert_Some.
    intros [[_ <-]|[_ H0]]; [set_solver|by eapply HR].
  - intros c0 s0. rewrite lookup_insert_Some.
    intros [[_ <-]|[_ H0]]; [done|by eapply HN].
Qed.

Lemma joinRoom_orderly_inv st c s uname room find_ok :
  sockets st !! c = Some s →
  orderly st (EvJoinRoom c uname room true find_ok) = true →
  orderly_inv st →
  orderly_inv (step st (EvJoinRoom c uname room true find_ok)).1.
Proof.
  intros Hc Hord [HP HB HR HN].
  destruct (orderly_joinRoom _ _ _ _ _ _ _ Hc Hord)
    as (Hune & Hrne & Hself & Hfree).
  rewrite (step_joinRoom_ok _ _ _ _ _ _ Hc). split; simpl.
  - intros room' uname'. rewrite elem_of_members_add, HP.
    unfold joined_to. simpl. setoid_rewrite lookup_insert_Some. split.
    + intros [[-> ->]|(c0 & s0 & Hc0 & Hu0 & Hr0 & Hin0)].
      * eexists c, _. split; [by left|]. simpl. set_solver.
      * destruct (decide (c0 = c)) as [->|Hne].
        -- assert (s0 = s) as -> by congruence.
           destruct Hself as [Hempty|[Hu Hr]]; [set_solver|].
           assert (uname' = uname) as -> by congruence.
           assert (room' = room) as -> by congruence.
           eexists c, _. split; [by left|]. simpl. set_solver.
        -- exists c0, s0. split; [right; by split|done].
    + intros (c0 & s0 & [[-> <-]|[Hne Hc0]] & Hu0 & Hr0 & Hin0); simpl in *.
      * left. split; congruence.
      * right. by exists c0, s0.
  - intros c1 s1 c2 s2 uname' room'. rewrite !lookup_insert_Some.
    intros [[-> <-]|[Hne1 H1]] [[-> <-]|[Hne2 H2]]; simpl; try done.
    + intros [= <-] [= <-] Hu2 Hr2. by destruct (Hfree c2 s2 H2).
    + intros Hu1 Hr1 [= <-] [= <-]. by destruct (Hfree c1 s1 H1).
    + by eapply HB.
  - intros c0 s0 room'. rewrite lookup_insert_Some.
    intros [[-> <-]|[Hne H0]]; simpl; [|by eapply HR].
    rewrite elem_of_union, elem_of_singleton. intros [->|Hin]; [done|].
    destruct Hself as [Hempty|[Hu Hr]]; [set_solver|].
    rewrite <- Hr. by eapply HR.
  - intros c0 s0. rewrite lookup_insert_Some.
    intros [[-> <-]|[Hne H0]]; simpl; [|by eapply HN].
    split; intros ? [= <-]; done.
Qed.

Lemma orderly_inv_close st au d c :
  orderly_inv st →
  (∀ room uname,
     uname ∈ members au room
     ↔ joined_to (State au (delete c (sockets st)) d) room uname) →
  orderly_inv (State au (delete c (sockets st)) d).
Proof.
  intros [HP HB HR HN] HP'. split; simpl; [done| | |].
  - intros c1 s1 c2 s2 uname room. rewrite !lookup_delete_Some.
    intros [_ H1] [_ H2]. by eapply HB.
  - intros c0 s0 room. rewrite lookup_delete_Some. intros [_ H0].
    by eapply HR.
  - intros c0 s0. rewrite lookup_delete_Some. intros [_ H0]. by eapply HN.
Qed.

Lemma disconnect_orderly_inv st c s :
  sockets st !! c = Some s →
  orderly_inv st →
  orderly_inv (step st (EvDisconnect c true)).1.
Proof.
  intros Hc Hinv. pose proof Hinv as [HP HB HR HN].
  destruct (HN c s Hc) as [HNu HNr].
  destruct (username s) as [uname|] eqn:Hu;
    [destruct (currentRoom s) as [room|] eqn:Hr|].
  - rewrite (step_disconnect_bound st c s uname room true Hc Hu Hr
               (HNu _ eq_refl) (HNr _ eq_refl)).
    apply orderly_inv_close; [done|].
    intros room' uname'. rewrite elem_of_members_remove, HP.
    unfold joined_to. simpl. setoid_rewrite lookup_delete_Some. split.
    + intros [(c0 & s0 & Hc0 & Hu0 & Hr0 & Hin0) Hne].
      exists c0, s0. split_and!; try done.
      intros ->. apply Hne. split; congruence.
    + intros (c0 & s0 & [Hne Hc0] & Hu0 & Hr0 & Hin0). split.
      * by exists c0, s0.
      * intros [-> ->]. apply Hne. symmetry. by eapply HB.
  - replace (step st (EvDisconnect c true)).1
      with (State (activeUsers st) (delete c (sockets st)) (db st))
      by (simpl; rewrite Hc; unfold disconnect; by rewrite Hu, Hr).
    apply orderly_inv_close; [done|].
    intros room' uname'. rewrite HP.
    unfold joined_to. simpl. setoid_rewrite lookup_delete_Some. split.
    + intros (c0 & s0 & Hc0 & Hu0 & Hr0 & Hin0).
      exists c0, s0. split_and!; try done. intros ->. congruence.
    + intros (c0 & s0 & [Hne Hc0] & H). by exists c0, s0.
  - replace (step st (EvDisconnect c true)).1
      with (State (activeUsers st) (delete c (sockets st)) (db st))
      by (simpl; rewrite Hc; unfold disconnect; by rewrite Hu).
    apply orderly_inv_close; [done|].
    intros room' uname'. rewrite HP.
    unfold joined_to. simpl. setoid_rewrite lookup_delete_Some. split.
    + intros (c0 & s0 & Hc0 & Hu0 & Hr0 & Hin0).
      exists c0, s0. split_and!; try done. intros ->. congruence.
    + intros (c0 & s0 & [Hne Hc0] & H). by exists c0, s0.
Qed.

Lemma leaveRoom_orderly_inv st c s uname room :
  sockets st !! c = Some s →
  orderly st (EvLeaveRoom c uname room) = true →
  orderly_inv st →
  orderly_inv (step st (EvLeaveRoom c uname room)).1.
Proof.
  intros Hc Hord [HP HB HR HN].
  destruct (orderly_leaveRoom _ _ _ _ _ Hc Hord) as [Hu Hr].
  rewrite (step_leaveRoom _ _ _ _ _ Hc). split; simpl.
  - intros room' uname'. rewrite elem_of_members_remove, HP.
    unfold joined_to. simpl. setoid_rewrite lookup_insert_Some. split.
    + intros [(c0 & s0 & Hc0 & Hu0 & Hr0 & Hin0) Hne].
      exists c0, s0. split_and!; try done. right. split; [|done].
      intros <-. apply Hne. split; congruence.
    + intros (c0 & s0 & [[-> <-]|[Hne Hc0]] & Hu0 & Hr0 & Hin0); simpl in *.
      * assert (room' = room) as -> by congruence. set_solver.
      * split; [by exists c0, s0|].
        intros [-> ->]. apply Hne. by eapply HB.
  - intros c1 s1 c2 s2 uname' room'. rewrite !lookup_insert_Some.
    intros [[-> <-]|[Hne1 H1]] [[-> <-]|[Hne2 H2]]; simpl; try done.
    + intros. by eapply HB.
    + intros. by eapply HB.
    + by eapply HB.
  - intros c0 s0 room'. rewrite lookup_insert_Some.
    intros [[-> <-]|[Hne H0]]; simpl; [|by eapply HR].
    rewrite elem_of_difference. intros [Hin _]. by eapply HR.
  - intros c0 s0. rewrite lookup_insert_Some.
    intros [[-> <-]|[Hne H0]]; simpl; by eapply HN.
Qed.

Lemma step_orderly_inv st e :
  orderly st e = true → orderly_inv st → orderly_inv (step st e).1.
Proof.
  intros Hord Hinv.
  destruct e as [c|c uname room upsert_ok find_ok|c room uname text now sok
                 |c room uname b|c update_ok|c uname room].
  - by apply connection_orderly_inv.
  - destruct (sockets st !! c) as [s|] eqn:Hc.
    + destruct upsert_ok; [by eapply joinRoom_orderly_inv|].
      simpl. by rewrite Hc.
    + simpl. by rewrite Hc.
  - simpl. destruct (sockets st !! c); [|done]. unfold chatMessage.
    destruct (negb _); [done|]. destruct sok; [|done].
    by destruct Hinv.
  - simpl. by destruct (sockets st !! c).
  - simpl in Hord. subst update_ok.
    destruct (sockets st !! c) as [s|] eqn:Hc.
    + by eapply disconnect_orderly_inv.
    + simpl. by rewrite Hc.
  - destruct (sockets st !! c) as [s|] eqn:Hc.
    + by eapply leaveRoom_orderly_inv.
    + simpl. by rewrite Hc.
Qed.

(** Joining [general] and then [random] on one connection leaves [alice]
    listed in [general], a room no open connection is bound to. *)
Lemma rejoin_leaves_ghost : ¬ presence_matches_bindings alice_switched.
Proof.
  intros H. destruct (H general alice) as [Hbound _].
  destruct Hbound as (c & s & Hc & Hu & Hr).
  { vm_compute. apply list_elem_of_In. by left. }
  assert (∃ rs, sockets alice_switched
                = {[ 1%nat := Socket (Some alice) (Some random) rs ]})
    as [rs Hs] by (eexists; reflexivity).
  rewrite Hs in Hc. apply lookup_singleton_Some in Hc as [_ <-].
  simpl in Hr. vm_compute in Hr. discriminate.
Qed.

(** C1, amended.  For every sequence of events that are handled one after
    the other, each handler finishing before the next event is handled,
    that use no name colliding with [Object.prototype], and that are
    orderly (non-empty names; a connection joins only while in no room or
    repeats its current join; no other open connection carries the same
    username and room; [leaveRoom] names the connection's own username and
    room; the write of every [disconnect] succeeds), each room's snapshot
    is exactly the set of usernames of open connections whose [currentRoom]
    is that room and that have not left it by [leaveRoom]. *)
Theorem orderly_presence_matches_joined tr :
  follows plain_event initial tr = true →
  orderly_run initial tr = true →
  ∀ room uname,
    uname ∈ snapshot (activeUsers (state_after tr)) room
    ↔ joined_to (state_after tr) room uname.
Proof.
  intros _ Hrun room uname. rewrite elem_of_snapshot.
  apply (follows_invariant orderly orderly_inv step_orderly_inv tr initial
                           orderly_inv_initial Hrun).
Qed.

Lemma orderly_presence_matches_joined_witness :
  bob ∈ snapshot
          (activeUsers
             (state_after [EvConnection 1; EvConnection 2;
                           EvJoinRoom 1 alice general true true;
                           EvJoinRoom 2 bob general true false;
                           EvLeaveRoom 1 alice general;
                           EvJoinRoom 1 alice random true true;
                           EvDisconnect 1 true]))
          general
  ↔ joined_to
      (state_after [EvConnection 1; EvConnection 2;
                    EvJoinRoom 1 alice general true true;
                    EvJoinRoom 2 bob general true false;
                    EvLeaveRoom 1 alice general;
                    EvJoinRoom 1 alice random true true;
                    EvDisconnect 1 true])
      general bob.
Proof.
  apply (orderly_presence_matches_joined
           [EvConnection 1; EvConnection 2;
            EvJoinRoom 1 alice general true true;
            EvJoinRoom 2 bob general true false;
            EvLeaveRoom 1 alice general;
            EvJoinRoom 1 alice random true true;
            EvDisconnect 1 true]); vm_compute; reflexivity.
Defined.

(** ** One room per username *)

Lemma orderly_unique_joinRoom st c s uname room upsert_ok find_ok :
  sockets st !! c = Some s →
  orderly_unique st (EvJoinRoom c uname room upsert_ok find_ok) = true →
  ∀ c' s', sockets st !! c' = Some s' → c' ≠ c → username s' ≠ Some uname.
Proof.
  intros Hc. unfold orderly_unique, username_free.
  rewrite andb_true_iff, bool_decide_eq_true.
  intros [_ Hfree] c' s' Hc' Hne. by destruct (Hfree c' s' Hc').
Qed.

Lemma step_usernames_distinct st e :
  orderly_unique st e = true →
  usernames_distinct st → usernames_distinct (step st e).1.
Proof.
  intros Hord HU.
  destruct e as [c|c uname room upsert_ok find_ok|c room uname text now sok
                 |c room uname b|c update_ok|c uname room]; simpl.
  - unfold connection. destruct (sockets st !! c) eqn:Hc; [done|].
    intros c1 s1 c2 s2 u. simpl. rewrite !lookup_insert_Some.
    intros [[_ <-]|[_ H1]] [[_ <-]|[_ H2]]; try done. by eapply HU.
  - destruct (sockets st !! c) as [s|] eqn:Hc; [|done].
    pose proof (orderly_unique_joinRoom _ _ _ _ _ _ _ Hc Hord) as Hfree.
    unfold joinRoom. destruct upsert_ok; [|done].
    assert (usernames_distinct
              (State (add_active (activeUsers st) room uname c)
                     (<[c := Socket (Some uname) (Some room)
                                    ({[room]} ∪ rooms s)]> (sockets st))
                     (User_findOneAndUpdate uname (UserDoc (Some c) true) true
                                            (db st)))) as Hnew.
    { intros c1 s1 c2 s2 u. simpl. rewrite !lookup_insert_Some.
      intros [[-> <-]|[Hne1 H1]] [[-> <-]|[Hne2 H2]]; simpl; try done.
      - intros [= <-] Hu2. by destruct (Hfree c2 s2 H2).
      - intros Hu1 [= <-]. by destruct (Hfree c1 s1 H1).
      - by eapply HU. }
    by destruct find_ok.
  - destruct (sockets st !! c); [|done]. unfold chatMessage.
    destruct (negb _); [done|]. by destruct sok.
  - by destruct (sockets st !! c).
  - destruct (sockets st !! c) as [s|] eqn:Hc; [|done].
    assert (sockets (disconnect c s update_ok st).1 = sockets st) as Hsame.
    { unfold disconnect. destruct (username s); [|done].
      destruct (currentRoom s); [|done].
      destruct (truthy _ && truthy _); [|done]. by destruct update_ok. }
    destruct (disconnect c s update_ok st) as [st' out]. simpl in *.
    rewrite Hsame. intros c1 s1 c2 s2 u. simpl. rewrite !lookup_delete_Some.
    intros [_ H1] [_ H2]. by eapply HU.
  - destruct (sockets st !! c) as [s|] eqn:Hc; [|done].
    intros c1 s1 c2 s2 u. simpl. rewrite !lookup_insert_Some.
    intros [[-> <-]|[Hne1 H1]] [[-> <-]|[Hne2 H2]]; simpl; try done.
    + intros. by eapply HU.
    + intros. by eapply HU.
    + by eapply HU.
Qed.

Lemma step_orderly_unique_inv st e :
  orderly_unique st e = true →
  orderly_inv st ∧ usernames_distinct st →
  orderly_inv (step st e).1 ∧ usernames_distinct (step st e).1.
Proof.
  intros Hord [Hinv HU]. split.
  - apply step_orderly_inv; [|done].
    unfold orderly_unique in Hord. by apply andb_true_iff in Hord as [? _].
  - by apply step_usernames_distinct.
Qed.

(** One connection joins [general] and then [random]: [alice] is listed in
    both rooms. *)
Lemma rejoin_lists_username_twice : ¬ one_room_per_username alice_switched.
Proof.
  intros H. specialize (H alice general random).
  assert (general = random) as Heq; [|vm_compute in Heq; discriminate].
  apply H; vm_compute; apply list_elem_of_In; by left.
Qed.

(** C4, amended.  In every state reached by a sequence of events that are
    handled one after the other, each handler finishing before the next
    event is handled, that use no name colliding with [Object.prototype],
    and that are orderly with, besides, no two open connections using the
    same username (so a connection leaves its room by [leaveRoom] before it
    joins another), each username is listed in at most one room's
    snapshot. *)
Theorem orderly_one_room_per_username tr :
  follows plain_event initial tr = true →
  orderly_unique_run initial tr = true →
  one_room_per_username (state_after tr).
Proof.
  intros _ Hrun.
  destruct (follows_invariant
              orderly_unique
              (λ st, orderly_inv st ∧ usernames_distinct st)
              step_orderly_unique_inv tr initial) as [[HP _ _ _] HU];
    [split; [apply orderly_inv_initial|by intros c1 s1 c2 s2 u H1] | done |].
  intros uname room1 room2. rewrite !elem_of_snapshot.
  fold (state_after tr) in HP, HU. rewrite !HP.
  intros (c1 & s1 & Hc1 & Hu1 & Hr1 & _) (c2 & s2 & Hc2 & Hu2 & Hr2 & _).
  assert (c1 = c2) as -> by (by eapply HU). congruence.
Qed.

Lemma orderly_one_room_per_username_witness :
  one_room_per_username
    (state_after [EvConnection 1; EvConnection 2;
                  EvJoinRoom 1 alice general true true;
                  EvJoinRoom 2 bob general true true;
                  EvLeaveRoom 1 alice general;
                  EvJoinRoom 1 alice random true true;
                  EvDisconnect 2 true]).
Proof.
  apply (orderly_one_room_per_username
           [EvConnection 1; EvConnection 2;
            EvJoinRoom 1 alice general true true;
            EvJoinRoom 2 bob general true true;
            EvLeaveRoom 1 alice general;
            EvJoinRoom 1 alice random true true;
            EvDisconnect 2 true]); vm_compute; reflexivity.
Defined.

(** * Further properties of the handlers *)

(** ** Which messages are dropped *)

Lemma trim_start_nil (s : jsstring) : trim_start s = [] → blank s.
Proof.
  unfold blank. induction s as [|c s IH]; simpl; [constructor|].
  destruct (is_white c) eqn:Hc; [|done]. intros H. constructor; auto.
Qed.

Lemma trim_start_head (s t : jsstring) c :
  trim_start s = c :: t → is_white c = false.
Proof.
  induction s as [|c' s IH]; simpl; [done|].
  destruct (is_white c') eqn:Hc; [done|]. by intros [= <- _].
Qed.

Lemma trim_nil (s : jsstring) : trim s = [] ↔ blank s.
Proof.
  split; [|apply trim_white].
  unfold trim, trim_end. intros H.
  assert (trim_start (rev (trim_start s)) = []) as H1.
  { destruct (trim_start (rev (trim_start s))); [done|].
    simpl in H. by destruct (rev l). }
  apply trim_start_nil in H1. unfold blank in H1.
  apply Forall_rev in H1. rewrite rev_involutive in H1.
  destruct (trim_start s) as [|c t] eqn:Hs; [by apply trim_start_nil|].
  apply trim_start_head in Hs. apply Forall_cons in H1 as [H1 _]. congruence.
Qed.

(** X1.  On an open connection a [chatMessage] emits nothing exactly when
    its text is empty or all whitespace; any other text gets either the
    [message] broadcast or the [error]. *)
Theorem chatMessage_silent_iff_blank st c s room uname text now save_ok :
  sockets st !! c = Some s →
  (step st (EvChatMessage c room uname text now save_ok)).2 = [] ↔ blank text.
Proof.
  intros Hc. simpl. rewrite Hc. unfold chatMessage.
  rewrite <- trim_nil. destruct (trim text) as [|u t]; simpl.
  - done.
  - destruct save_ok; simpl; split; done.
Qed.

Lemma chatMessage_silent_iff_blank_witness :
  (step alice_in_general
        (EvChatMessage 1 general alice (js " ") 5 true)).2 = []
  ↔ blank (js " ").
Proof.
  apply (chatMessage_silent_iff_blank
           alice_in_general 1%nat
           (Socket (Some alice) (Some general) {[general]})).
  reflexivity.
Defined.

(** ** Stored records *)

Lemma step_db st e :
  db (step st e).1 = db st
  ∨ (∃ uname upd upsert,
       db (step st e).1 = User_findOneAndUpdate uname upd upsert (db st))
  ∨ (∃ m, db (step st e).1 = Message_save m (db st)).
Proof.
  destruct e as [c|c uname room [] fok|c room uname text now sok
                 |c room uname b|c uok|c uname room]; simpl.
  - unfold connection. destruct (sockets st !! c); by left.
  - destruct (sockets st !! c); [|by left]. right; left.
    eexists _, _, _. by destruct fok.
  - destruct (sockets st !! c); by left.
  - destruct (sockets st !! c); [|by left]. unfold chatMessage.
    destruct (negb _); [by left|]. destruct sok; [|by left].
    right; right. by eexists.
  - destruct (sockets st !! c); by left.
  - destruct (sockets st !! c) as [s|]; [|by left]. unfold disconnect.
    destruct (username s) as [u|]; [|by left].
    destruct (currentRoom s) as [r|]; [|by left].
    destruct (truthy u && truthy r); [|by left].
    destruct uok; [|by left]. right; left. by eexists _, _, _.
  - destruct (sockets st !! c); by left.
Qed.

Lemma User_findOneAndUpdate_messages uname upd upsert d :
  messages (User_findOneAndUpdate uname upd upsert d) = messages d.
Proof.
  unfold User_findOneAndUpdate.
  destruct (users d !! uname); [done|]. by destruct upsert.
Qed.

Lemma User_findOneAndUpdate_lookup uname upd upsert d u :
  users (User_findOneAndUpdate uname upd upsert d) !! u =
  if decide (uname = u)
  then (if upsert then Some upd else (λ _, upd) <$> users d !! uname)
  else users d !! u.
Proof.
  unfold User_findOneAndUpdate.
  destruct (users d !! uname) as [old|] eqn:Hold; simpl.
  - rewrite lookup_insert. case_decide; [|done]. by destruct upsert.
  - destruct upsert; simpl.
    + rewrite lookup_insert. by case_decide.
    + case_decide; [by subst|done].
Qed.

(** X2.  The [Message] collection is append-only: whatever events arrive,
    with whatever persistence outcomes, the messages stored before are still
    there afterwards, unchanged and in the same order, in front of the new
    ones. *)
Theorem run_messages_append_only st tr :
  messages (db st) `prefix_of` messages (db (run st tr).1).
Proof.
  revert st. induction tr as [|e tr IH]; intros st; simpl; [done|].
  specialize (IH (step st e).1).
  assert (messages (db st) `prefix_of` messages (db (step st e).1)) as Hstep.
  { destruct (step_db st e) as [->|[(u & upd & ups & ->)|(m & ->)]].
    - done.
    - by rewrite User_findOneAndUpdate_messages.
    - simpl. by apply prefix_app_r. }
  destruct (step st e) as [st1 out1]. simpl in *.
  destruct (run st1 tr) as [st2 out2]. simpl in *. by etrans.
Qed.

(** X3.  No event ever removes a [User] document: a username that has a
    document keeps one through every run. *)
Theorem run_users_never_removed st tr uname :
  is_Some (users (db st) !! uname) →
  is_Some (users (db (run st tr).1) !! uname).
Proof.
  revert st. induction tr as [|e tr IH]; intros st Hu; simpl; [done|].
  specialize (IH (step st e).1).
  assert (is_Some (users (db (step st e).1) !! uname)) as Hstep.
  { destruct (step_db st e) as [->|[(u & upd & ups & ->)|(m & ->)]].
    - done.
    - rewrite User_findOneAndUpdate_lookup. case_decide; [|done].
      subst u. destruct ups; [done|]. destruct Hu as [x ->]. by eexists.
    - done. }
  specialize (IH Hstep).
  destruct (step st e) as [st1 out1]. simpl in *.
  by destruct (run st1 tr).
Qed.

Lemma run_users_never_removed_witness :
  is_Some
    (users (db (run alice_in_general
                    [EvDisconnect 1 true; EvConnection 2;
                     EvJoinRoom 2 bob general true true]).1) !! alice).
Proof.
  apply (run_users_never_removed
           alice_in_general
           [EvDisconnect 1 true; EvConnection 2;
            EvJoinRoom 2 bob general true true] alice).
  vm_compute. eauto.
Defined.

(** ** Message history *)

Lemma insert_by_timestamp_perm m l : insert_by_timestamp m l ≡ₚ m :: l.
Proof.
  induction l as [|m' l IH]; simpl; [done|].
  destruct (msg_timestamp m <? msg_timestamp m')%Z; [done|].
  rewrite IH. apply Permutation_swap.
Qed.

Lemma sort_by_timestamp_perm l : foldr insert_by_timestamp [] l ≡ₚ l.
Proof.
  induction l as [|m l IH]; simpl; [done|].
  rewrite insert_by_timestamp_perm. by rewrite IH.
Qed.

Lemma insert_by_timestamp_sorted m l :
  StronglySorted (λ a b, (msg_timestamp a ≤ msg_timestamp b)%Z) l →
  StronglySorted (λ a b, (msg_timestamp a ≤ msg_timestamp b)%Z)
                 (insert_by_timestamp m l).
Proof.
  induction 1 as [|m' l Hl IH Hall]; simpl.
  - repeat constructor.
  - destruct (msg_timestamp m <? msg_timestamp m')%Z eqn:Hlt.
    + apply Z.ltb_lt in Hlt. constructor; [by constructor|].
      constructor; [lia|]. eapply Forall_impl; [exact Hall|].
      simpl. intros. lia.
    + apply Z.ltb_ge in Hlt. constructor; [done|].
      rewrite insert_by_timestamp_perm. by constructor.
Qed.

Lemma Message_find_perm room d :
  Message_find room d ≡ₚ filter (λ m, msg_room m = room) (messages d).
Proof. apply sort_by_timestamp_perm. Qed.

(** X4.  The history of a room, as sent in [chatHistory] on a join and by
    [GET /api/messages/:room], is in non-decreasing timestamp order and
    consists of exactly the stored messages of that room, each as often as
    it is stored; a room without stored messages has the empty history. *)
Theorem Message_find_sorted_exact room d :
  StronglySorted (λ a b, (msg_timestamp a ≤ msg_timestamp b)%Z)
                 (Message_find room d)
  ∧ Message_find room d ≡ₚ filter (λ m, msg_room m = room) (messages d)
  ∧ (Message_find room d = [] ↔ ∀ m, m ∈ messages d → msg_room m ≠ room).
Proof.
  split_and!.
  - unfold Message_find.
    induction (filter _ (messages d)) as [|m l IH]; simpl; [constructor|].
    by apply insert_by_timestamp_sorted.
  - apply Message_find_perm.
  - split.
    + intros Hnil m Hm Hroom.
      assert (m ∈ Message_find room d) as Hin.
      { rewrite Message_find_perm. apply list_elem_of_filter. by split. }
      rewrite Hnil in Hin. by apply elem_of_nil in Hin.
    + intros Hnone. apply Permutation_nil_r.
      rewrite Message_find_perm.
      induction (messages d) as [|m l IH]; [done|].
      rewrite filter_cons. rewrite decide_False.
      * apply IH. intros m' Hm'. apply Hnone. by right.
      * apply Hnone. by left.
Qed.

Lemma step_chatMessage_saved st c s room uname text now :
  sockets st !! c = Some s →
  trim text ≠ [] →
  step st (EvChatMessage c room uname text now true) =
    (State (activeUsers st) (sockets st)
           (Message_save (MessageDoc room uname text now) (db st)),
     [ (ToRoom room, message uname text now) ]).
Proof.
  intros Hc Htext. simpl. rewrite Hc. unfold chatMessage.
  apply truthy_nonempty in Htext. by rewrite Htext.
Qed.

(** X5.  A message that was saved is in the history of its room from then
    on, and saving it leaves the history of every other room as it was. *)
Theorem chatMessage_saved_in_history st c s room uname text now :
  sockets st !! c = Some s →
  trim text ≠ [] →
  MessageDoc room uname text now
    ∈ Message_find
        room (db (step st (EvChatMessage c room uname text now true)).1)
  ∧ ∀ room',
      room' ≠ room →
      Message_find
        room' (db (step st (EvChatMessage c room uname text now true)).1)
      = Message_find room' (db st).
Proof.
  intros Hc Htext.
  rewrite (step_chatMessage_saved st c s room uname text now Hc Htext).
  simpl. split.
  - rewrite Message_find_perm. simpl. rewrite filter_app.
    apply elem_of_app. right. rewrite filter_cons, decide_True by done.
    by left.
  - intros room' Hne. unfold Message_find. simpl. rewrite filter_app.
    rewrite (filter_cons _ (MessageDoc _ _ _ _)), decide_False by done.
    rewrite filter_nil. by rewrite app_nil_r.
Qed.

Lemma chatMessage_saved_in_history_witness :
  MessageDoc general alice (js "hi") 7
    ∈ Message_find
        general
        (db (step alice_in_general
                  (EvChatMessage 1 general alice (js "hi") 7 true)).1).
Proof.
  destruct (chatMessage_saved_in_history
              alice_in_general 1%nat
              (Socket (Some alice) (Some general) {[general]})
              general alice (js "hi") 7) as [H _];
    [reflexivity | vm_compute; discriminate | exact H].
Defined.

(** ** The online flag *)

(** X6.  Once the upsert of a [joinRoom] has succeeded the user's document
    says online with the joining connection's id, whether or not the
    history query succeeds afterwards and whether or not the document
    existed before; every other user's document is untouched. *)
Theorem joinRoom_marks_user_online st c s uname room find_ok :
  sockets st !! c = Some s →
  users (db (step st (EvJoinRoom c uname room true find_ok)).1) !! uname
    = Some (UserDoc (Some c) true)
  ∧ ∀ other,
      other ≠ uname →
      users (db (step st (EvJoinRoom c uname room true find_ok)).1) !! other
      = users (db st) !! other.
Proof.
  intros Hc. rewrite (step_joinRoom_ok _ _ _ _ _ _ Hc). simpl. split.
  - rewrite User_findOneAndUpdate_lookup. by rewrite decide_True.
  - intros other Hne. rewrite User_findOneAndUpdate_lookup.
    by rewrite decide_False.
Qed.

Lemma joinRoom_marks_user_online_witness :
  users (db (step alice_left (EvJoinRoom 1 alice random true false)).1) !! alice
  = Some (UserDoc (Some 1%nat) true).
Proof.
  destruct (joinRoom_marks_user_online
              alice_left 1%nat (Socket (Some alice) (Some general) ∅)
              alice random false) as [H _]; [reflexivity | exact H].
Defined.

(** X7.  A [disconnect] whose write succeeds, on a connection with
    non-empty [username] and [currentRoom], sets that user's document to
    offline with a null [socketId] if there is one, creates none if there is
    not (the update is not an upsert), and touches no other user's
    document. *)
Theorem disconnect_marks_user_offline st c s uname room :
  sockets st !! c = Some s →
  username s = Some uname → currentRoom s = Some room →
  uname ≠ [] → room ≠ [] →
  users (db (step st (EvDisconnect c true)).1) !! uname
    = (λ _, UserDoc None false) <$> users (db st) !! uname
  ∧ ∀ other,
      other ≠ uname →
      users (db (step st (EvDisconnect c true)).1) !! other
      = users (db st) !! other.
Proof.
  intros Hc Hu Hr Hune Hrne.
  rewrite (step_disconnect_bound _ _ _ _ _ _ Hc Hu Hr Hune Hrne). simpl.
  split.
  - rewrite User_findOneAndUpdate_lookup. by rewrite decide_True.
  - intros other Hne. rewrite User_findOneAndUpdate_lookup.
    by rewrite decide_False.
Qed.

Lemma disconnect_marks_user_offline_witness :
  users (db (step alice_in_general (EvDisconnect 1 true)).1) !! alice
  = (λ _, UserDoc None false) <$> users (db alice_in_general) !! alice.
Proof.
  destruct (disconnect_marks_user_offline
              alice_in_general 1%nat
              (Socket (Some alice) (Some general) {[general]})
              alice general) as [H _];
    [reflexivity | reflexivity | reflexivity
    | vm_compute; discriminate | vm_compute; discriminate | exact H].
Defined.

(** ** Shape of the presence table *)

Lemma obj_set_nonempty {V} (o : jsobj V) k v : obj_set o k v ≠ [].
Proof. destruct o as [|[k' v'] o]; simpl; [done|]. by case_decide. Qed.

Lemma no_empty_rooms_add au room uname c :
  no_empty_rooms au → no_empty_rooms (add_active au room uname c).
Proof.
  intros [Hnd Hne]. split.
  - unfold add_active. apply own_names_set_NoDup.
    destruct (obj_get au room); [done|]. by apply own_names_set_NoDup.
  - intros room' o. rewrite obj_get_add_active. case_decide; [|apply Hne].
    intros [= <-]. apply obj_set_nonempty.
Qed.

Lemma no_empty_rooms_remove au room uname :
  no_empty_rooms au → no_empty_rooms (remove_active au room uname).
Proof.
  intros [Hnd Hne]. unfold remove_active.
  destruct (obj_get au room) as [o|] eqn:Ho; [|done].
  destruct (obj_get o uname); [|done].
  destruct (length _ =? 0)%nat eqn:Hlen.
  - split; [by apply own_names_delete_NoDup|].
    intros room' o'. rewrite obj_get_delete. case_decide; [done|apply Hne].
  - split; [by apply own_names_set_NoDup|].
    intros room' o'. rewrite obj_get_set. case_decide; [|apply Hne].
    intros [= <-] Hnil. rewrite Hnil in Hlen. done.
Qed.

Lemma run_no_empty_rooms st tr :
  no_empty_rooms (activeUsers st) → no_empty_rooms (activeUsers (run st tr).1).
Proof.
  revert st. induction tr as [|e tr IH]; intros st Hau; simpl; [done|].
  assert (no_empty_rooms (activeUsers (step st e).1)) as H1.
  { destruct (step_activeUsers st e) as [->|[(r & u & c & ->)|(r & u & ->)]];
      [done|by apply no_empty_rooms_add|by apply no_empty_rooms_remove]. }
  destruct (step st e) as [st1 out1]. specialize (IH st1 H1).
  by destruct (run st1 tr).
Qed.

Lemma state_after_no_empty_rooms tr :
  no_empty_rooms (activeUsers (state_after tr)).
Proof. apply run_no_empty_rooms. split; [apply NoDup_nil_2|done]. Qed.

(** X8.  In every state reached by events that use no name colliding with
    [Object.prototype], handled one after the other, [activeUsers] has each
    room key once and keeps no key for an empty room: a room has a key
    exactly when its snapshot is not empty. *)
Theorem reachable_no_empty_rooms tr :
  follows plain_event initial tr = true →
  no_empty_rooms (activeUsers (state_after tr))
  ∧ ∀ room,
      obj_get (activeUsers (state_after tr)) room = None
      ↔ snapshot (activeUsers (state_after tr)) room = [].
Proof.
  intros _. pose proof (state_after_no_empty_rooms tr) as Hau.
  split; [done|]. intros room. unfold snapshot. split.
  - by intros ->.
  - destruct (obj_get _ room) as [o|] eqn:Ho; [|done]. simpl. intros Hnil.
    destruct Hau as [_ Hne]. destruct (Hne room o Ho).
    apply Object_keys_empty. by rewrite Hnil.
Qed.

Lemma reachable_no_empty_rooms_witness :
  no_empty_rooms
    (activeUsers
       (state_after [EvConnection 1; EvJoinRoom 1 alice general true true;
                     EvLeaveRoom 1 alice general])).
Proof.
  destruct (reachable_no_empty_rooms
              [EvConnection 1; EvJoinRoom 1 alice general true true;
               EvLeaveRoom 1 alice general]) as [H _];
    [vm_compute; reflexivity | exact H].
Defined.

(** ** Joining and leaving *)

Section ObjectRoundTrips.
Context {V : Type}.
Implicit Types (o : jsobj V) (k : jsstring) (v : V).

Lemma obj_delete_absent o k : k ∉ own_names o → obj_delete o k = o.
Proof.
  unfold own_names, obj_delete. induction o as [|[k0 v0] o IH]; [done|].
  simpl. intros [? ?]%not_elem_of_cons.
  rewrite filter_cons. simpl. rewrite decide_True by done.
  f_equal. by apply IH.
Qed.

Lemma obj_delete_set o k v : obj_delete (obj_set o k v) k = obj_delete o k.
Proof.
  unfold obj_delete. induction o as [|[k0 v0] o IH]; simpl.
  - rewrite filter_cons. simpl. by rewrite decide_False by (by intros ?).
  - destruct (decide (k0 = k)) as [->|Hne].
    + rewrite !filter_cons. simpl. by rewrite !decide_False by (by intros ?).
    + rewrite !filter_cons. simpl. rewrite !decide_True by done.
      by rewrite IH.
Qed.

Lemma obj_set_set o k v v' : obj_set (obj_set o k v) k v' = obj_set o k v'.
Proof.
  induction o as [|[k0 v0] o IH]; simpl.
  - by rewrite decide_True.
  - destruct (decide (k0 = k)) as [->|Hne]; simpl.
    + by rewrite decide_True.
    + rewrite decide_False by done. by rewrite IH.
Qed.

Lemma obj_set_same o k v : obj_get o k = Some v → obj_set o k v = o.
Proof.
  induction o as [|[k0 v0] o IH]; simpl; [done|].
  destruct (decide (k0 = k)) as [->|Hne].
  - by intros [= ->].
  - intros H. by rewrite IH.
Qed.

End ObjectRoundTrips.

Lemma remove_add_active au room uname c :
  (∀ o, obj_get au room = Some o → o ≠ []) →
  uname ∉ members au room →
  remove_active (add_active au room uname c) room uname = au.
Proof.
  intros Hne Hout. unfold remove_active.
  rewrite obj_get_add_active, decide_True by done.
  rewrite obj_get_set_eq. unfold members in Hout. unfold add_active.
  destruct (obj_get au room) as [o|] eqn:Ho; simpl in *.
  - rewrite obj_delete_set, (obj_delete_absent o uname Hout).
    destruct (length (Object_keys o) =? 0)%nat eqn:Hlen.
    + apply Object_keys_empty in Hlen. by destruct (Hne o).
    + rewrite obj_set_set. by apply obj_set_same.
  - rewrite obj_get_set_eq. simpl.
    assert (obj_delete [(uname, c)] uname = []) as ->
      by apply (obj_delete_set [] uname c).
    simpl. rewrite !obj_delete_set.
    apply obj_delete_absent. by apply obj_get_None.
Qed.

(** X9.  With events handled one after the other and no name colliding
    with [Object.prototype]: in a reachable state, when a username that is
    not listed in a room joins it and, after the join's handler has
    finished, the same connection leaves it, [activeUsers] is back to
    exactly what it was before the join, key order included. *)
Theorem join_then_leave_restores_table tr c s uname room find_ok :
  follows plain_event initial tr = true →
  plain uname = true → plain room = true →
  sockets (state_after tr) !! c = Some s →
  uname ∉ snapshot (activeUsers (state_after tr)) room →
  activeUsers
    (run (state_after tr)
         [EvJoinRoom c uname room true find_ok; EvLeaveRoom c uname room]).1
  = activeUsers (state_after tr).
Proof.
  intros _ _ _ Hc Hout. rewrite elem_of_snapshot in Hout.
  destruct (state_after_no_empty_rooms tr) as [_ Hne].
  set (st := state_after tr) in *. cbn [run].
  pose proof (step_joinRoom_ok st c s uname room find_ok Hc) as Hjoin.
  destruct (step st (EvJoinRoom c uname room true find_ok)) as [st1 out1].
  simpl in Hjoin. subst st1.
  set (st1 := State _ _ _).
  assert (is_Some (sockets st1 !! c)) as [s1 Hc1]
    by (unfold st1; simpl; rewrite lookup_insert_eq; eauto).
  rewrite (step_leaveRoom st1 c s1 uname room Hc1). simpl.
  apply remove_add_active; [|done]. intros o. apply Hne.
Qed.

Lemma join_then_leave_restores_table_witness :
  activeUsers
    (run (state_after [EvConnection 1; EvConnection 2;
                       EvJoinRoom 1 alice general true true])
         [EvJoinRoom 2 bob general true true; EvLeaveRoom 2 bob general]).1
  = activeUsers (state_after [EvConnection 1; EvConnection 2;
                              EvJoinRoom 1 alice general true true]).
Proof.
  apply (join_then_leave_restores_table
           [EvConnection 1; EvConnection 2;
            EvJoinRoom 1 alice general true true]
           2%nat (Socket None None ∅) bob general true);
    [vm_compute; reflexivity | reflexivity | reflexivity | reflexivity |].
  vm_compute. intros H. apply list_elem_of_In in H.
  simpl in H. destruct H as [H|[]]. discriminate.
Defined.

(** X10.  [leaveRoom] is idempotent: repeating it on the same connection
    with the same data gives the same state and the same two packets as the
    first time. *)
Theorem leaveRoom_idempotent st c s uname room :
  sockets st !! c = Some s →
  step (step st (EvLeaveRoom c uname room)).1 (EvLeaveRoom c uname room)
  = step st (EvLeaveRoom c uname room).
Proof.
  intros Hc. rewrite (step_leaveRoom st c s uname room Hc). cbn [fst].
  set (s1 := Socket _ _ _). set (st1 := State _ _ _).
  assert (sockets st1 !! c = Some s1) as Hc1 by apply lookup_insert_eq.
  rewrite (step_leaveRoom st1 c s1 uname room Hc1). simpl.
  rewrite (remove_active_absent (remove_active (activeUsers st) room uname)
             room uname (not_elem_of_members_remove _ _ _)).
  rewrite insert_insert_eq.
  replace (rooms s ∖ {[room]} ∖ {[room]}) with (rooms s ∖ {[room]})
    by set_solver.
  done.
Qed.

Lemma leaveRoom_idempotent_witness :
  step (step alice_in_general (EvLeaveRoom 1 alice general)).1
       (EvLeaveRoom 1 alice general)
  = step alice_in_general (EvLeaveRoom 1 alice general).
Proof.
  apply (leaveRoom_idempotent
           alice_in_general 1%nat
           (Socket (Some alice) (Some general) {[general]})).
  reflexivity.
Defined.

(** ** Whose entry it is *)






(** ** Rooms do not interfere *)

(** X13.  An event whose names do not collide with [Object.prototype]
    edits at most the entry of one room, the room named in
    a [joinRoom] or [leaveRoom] or the [currentRoom] of a disconnecting
    connection; the snapshot of every other room is what it was. *)
Theorem step_other_rooms_untouched st e room :
  plain_event st e = true →
  touched_room st e ≠ Some room →
  snapshot (activeUsers (step st e).1) room = snapshot (activeUsers st) room.
Proof.
  intros _ Hne. unfold snapshot.
  cut (obj_get (activeUsers (step st e).1) room
       = obj_get (activeUsers st) room); [by intros ->|].
  destruct e as [c|c uname r uok fok|c r uname text now sok
                 |c r uname b|c uok|c uname r]; simpl in *.
  - unfold connection. by destruct (sockets st !! c).
  - destruct (sockets st !! c); [|done].
    assert (r ≠ room) by congruence.
    unfold joinRoom. destruct uok; [|done].
    assert (∀ (out1 out2 : list output) st',
              activeUsers (if fok then (st', out1) else (st', out2)).1
              = activeUsers st') as -> by (intros; by destruct fok).
    simpl. rewrite obj_get_add_active. by rewrite decide_False.
  - destruct (sockets st !! c); [|done]. unfold chatMessage.
    destruct (negb _); [done|]. by destruct sok.
  - by destruct (sockets st !! c).
  - destruct (sockets st !! c) as [s|]; [|done]. simpl in Hne.
    unfold disconnect. destruct (username s) as [u|]; [|done].
    destruct (currentRoom s) as [r|]; [|done].
    destruct (truthy u && truthy r); [|done].
    destruct uok; [|done]. simpl.
    apply obj_get_remove_active. congruence.
  - destruct (sockets st !! c); [|done]. simpl.
    apply obj_get_remove_active. congruence.
Qed.

Lemma step_other_rooms_untouched_witness :
  snapshot
    (activeUsers (step alice_switched (EvLeaveRoom 1 alice random)).1) general
  = snapshot (activeUsers alice_switched) general.
Proof.
  apply (step_other_rooms_untouched
           alice_switched (EvLeaveRoom 1 alice random) general);
    [reflexivity | vm_compute; discriminate].
Defined.

(** ** Where entries come from *)

Lemma step_members_origin st e room uname :
  uname ∈ members (activeUsers (step st e).1) room →
  uname ∈ members (activeUsers st) room
  ∨ ∃ c find_ok, e = EvJoinRoom c uname room true find_ok.
Proof.
  destruct e as [c|c u r uok fok|c r u text now sok
                 |c r u b|c uok|c u r]; simpl.
  - unfold connection. destruct (sockets st !! c); by left.
  - destruct (sockets st !! c); [|by left].
    unfold joinRoom. destruct uok; [|by left].
    assert (∀ (out1 out2 : list output) st',
              activeUsers (if fok then (st', out1) else (st', out2)).1
              = activeUsers st') as -> by (intros; by destruct fok).
    simpl. rewrite elem_of_members_add. intros [[-> ->]|H]; [right|by left].
    by exists c, fok.
  - destruct (sockets st !! c); [|by left]. unfold chatMessage.
    destruct (negb _); [by left|]. destruct sok; by left.
  - destruct (sockets st !! c); by left.
  - destruct (sockets st !! c) as [s|]; [|by left].
    unfold disconnect. destruct (username s) as [u|]; [|by left].
    destruct (currentRoom s) as [r|]; [|by left].
    destruct (truthy u && truthy r); [|by left].
    destruct uok; [|by left]. simpl.
    rewrite elem_of_members_remove. intros [H _]. by left.
  - destruct (sockets st !! c); [|by left]. simpl.
    rewrite elem_of_members_remove. intros [H _]. by left.
Qed.

(** X14.  With events handled one after the other and no name colliding
    with [Object.prototype], only a [joinRoom] whose upsert succeeded puts a
    username into the presence table: whoever is listed in a room's snapshot after a run was
    named, with that room, by such a [joinRoom] of the run. *)
Theorem listed_only_by_joinRoom tr room uname :
  follows plain_event initial tr = true →
  uname ∈ snapshot (activeUsers (state_after tr)) room →
  joined_in tr room uname.
Proof.
  intros _. rewrite elem_of_snapshot. unfold state_after.
  assert (∀ st, uname ∈ members (activeUsers (run st tr).1) room →
                uname ∈ members (activeUsers st) room
                ∨ joined_in tr room uname) as Hgen.
  { induction tr as [|e tr IH]; intros st; simpl; [by left|].
    specialize (IH (step st e).1).
    pose proof (step_members_origin st e room uname) as Hstep.
    destruct (step st e) as [st1 out1]. simpl in *.
    destruct (run st1 tr) as [st2 out2]. simpl in *.
    intros Hin. destruct (IH Hin) as [H1|(c & f & Hj)].
    - destruct (Hstep H1) as [H0|(c & f & ->)]; [by left|right].
      exists c, f. by left.
    - right. exists c, f. by right. }
  intros Hin. destruct (Hgen initial Hin) as [H|H]; [|done].
  by apply elem_of_nil in H.
Qed.

Lemma listed_only_by_joinRoom_witness : joined_in
    [EvConnection 1; EvJoinRoom 1 alice general true false] general alice.
Proof.
  apply (listed_only_by_joinRoom
           [EvConnection 1; EvJoinRoom 1 alice general true false]
           general alice); [vm_compute; reflexivity|].
  vm_compute. apply list_elem_of_In. by left.
Defined.

(** * Properties of the REST routes *)

Lemma Room_findOne_is_Some name coll :
  is_Some (Room_findOne name coll) ↔ name ∈ room_name <$> coll.
Proof.
  induction coll as [|r coll IH]; simpl.
  - split; [by intros [? ?]|by intros ?%elem_of_nil].
  - rewrite elem_of_cons. destruct (decide (room_name r = name)) as [Hr|Hr].
    + split; eauto.
    + rewrite IH. naive_solver.
Qed.

Lemma Room_findOne_None name coll :
  Room_findOne name coll = None ↔ name ∉ room_name <$> coll.
Proof. rewrite <- Room_findOne_is_Some, eq_None_not_Some. done. Qed.

Lemma post_rooms_created name uuid now findOne save coll :
  status (post_rooms name uuid now findOne save coll).2 = 200%nat →
  Room_findOne name coll = None
  ∧ post_rooms name uuid now findOne save coll
    = (coll ++ [RoomDoc name uuid now],
       Response 200 (RoomCreated (RoomDoc name uuid now))).
Proof.
  unfold post_rooms. destruct findOne; [|done].
  destruct (Room_findOne name coll); [done|]. by destruct save.
Qed.

Lemma post_rooms_unchanged name uuid now findOne save coll :
  status (post_rooms name uuid now findOne save coll).2 ≠ 200%nat →
  (post_rooms name uuid now findOne save coll).1 = coll.
Proof.
  unfold post_rooms. destruct findOne; [|done].
  destruct (Room_findOne name coll); [done|]. by destruct save.
Qed.

(** X15.  [POST /api/rooms] changes the [Room] collection exactly when it
    answers 200, and then by appending the one new document; after a 400 or
    a 500 the collection is what it was. *)
Theorem post_rooms_appends_iff_200 name uuid now findOne save coll :
  (post_rooms name uuid now findOne save coll).1 =
    if decide (status (post_rooms name uuid now findOne save coll).2 = 200%nat)
    then coll ++ [RoomDoc name uuid now]
    else coll.
Proof.
  case_decide as Hst.
  - by destruct (post_rooms_created _ _ _ _ _ _ Hst) as [_ ->].
  - by apply post_rooms_unchanged.
Qed.

(** X16.  Once a [POST /api/rooms] for a name has answered 200, the next
    one for the same name whose lookup resolves is answered 400 with
    [Room already exists] and adds nothing, whatever its id, date and save
    outcome would have been. *)
Theorem post_rooms_twice_rejected
    name uuid1 now1 findOne1 save1 uuid2 now2 save2 coll :
  status (post_rooms name uuid1 now1 findOne1 save1 coll).2 = 200%nat →
  post_rooms name uuid2 now2 Resolves save2
             (post_rooms name uuid1 now1 findOne1 save1 coll).1
  = ((post_rooms name uuid1 now1 findOne1 save1 coll).1,
     Response 400 (ErrorBody (js "Room already exists"))).
Proof.
  intros Hst. destruct (post_rooms_created _ _ _ _ _ _ Hst) as [_ ->].
  cbn [fst]. unfold post_rooms.
  destruct (Room_findOne name (coll ++ [RoomDoc name uuid1 now1]))
    as [r|] eqn:Hfind; [done|].
  apply Room_findOne_None in Hfind. destruct Hfind.
  rewrite fmap_app. apply elem_of_app. right. simpl. by left.
Qed.

Lemma post_rooms_twice_rejected_witness :
  post_rooms general (js "id-2") 20 Resolves Resolves
             (post_rooms general (js "id-1") 10 Resolves Resolves []).1
  = ((post_rooms general (js "id-1") 10 Resolves Resolves []).1,
     Response 400 (ErrorBody (js "Room already exists"))).
Proof.
  apply (post_rooms_twice_rejected
           general (js "id-1") 10 Resolves Resolves
           (js "id-2") 20 Resolves []).
  reflexivity.
Defined.

Lemma post_room_names_distinct coll p :
  NoDup (room_name <$> coll) → NoDup (room_name <$> (post_room coll p).1).
Proof.
  intros Hnd. unfold post_room.
  destruct (decide (status (post_rooms (post_name p) (post_uuid p)
                                       (post_now p) (post_findOne p)
                                       (post_save p) coll).2 = 200%nat))
    as [Hst|Hst]; [|by rewrite post_rooms_unchanged].
  destruct (post_rooms_created _ _ _ _ _ _ Hst) as [Hnone ->].
  apply Room_findOne_None in Hnone. cbn [fst].
  rewrite fmap_app. apply NoDup_app. split_and!; [done| |apply NoDup_singleton].
  intros x Hx ->%list_elem_of_singleton. done.
Qed.

(** X17.  Room names stay unique: if no two documents of the [Room]
    collection share a name, then none do after any sequence of
    [POST /api/rooms] requests, whatever their data and outcomes. *)
Theorem rooms_after_names_distinct coll ps :
  NoDup (room_name <$> coll) → NoDup (room_name <$> rooms_after coll ps).
Proof.
  unfold rooms_after. revert coll.
  induction ps as [|p ps IH]; intros coll Hnd; simpl; [done|].
  apply IH. by apply post_room_names_distinct.
Qed.

Lemma rooms_after_names_distinct_witness :
  NoDup (room_name <$>
           rooms_after []
             [ RoomPost general (js "id-1") 10 Resolves Resolves;
               RoomPost random (js "id-2") 20 Resolves (Rejects (js "down"));
               RoomPost general (js "id-3") 30 Resolves Resolves;
               RoomPost random (js "id-4") 40 Resolves Resolves ]).
Proof.
  apply (rooms_after_names_distinct
           []
           [ RoomPost general (js "id-1") 10 Resolves Resolves;
             RoomPost random (js "id-2") 20 Resolves (Rejects (js "down"));
             RoomPost general (js "id-3") 30 Resolves Resolves;
             RoomPost random (js "id-4") 40 Resolves Resolves ]).
  simpl. apply NoDup_nil_2.
Defined.

Lemma insert_by_createdAt_perm r l : insert_by_createdAt r l ≡ₚ r :: l.
Proof.
  induction l as [|r' l IH]; simpl; [done|].
  destruct (room_createdAt r' <=? room_createdAt r)%Z; [done|].
  rewrite IH. apply Permutation_swap.
Qed.

Lemma Room_find_newest_first_perm coll : Room_find_newest_first coll ≡ₚ coll.
Proof.
  unfold Room_find_newest_first.
  induction coll as [|r l IH]; simpl; [done|].
  rewrite insert_by_createdAt_perm. by rewrite IH.
Qed.

Lemma insert_by_createdAt_sorted r l :
  StronglySorted (λ a b, (room_createdAt b ≤ room_createdAt a)%Z) l →
  StronglySorted (λ a b, (room_createdAt b ≤ room_createdAt a)%Z)
                 (insert_by_createdAt r l).
Proof.
  induction 1 as [|r' l Hl IH Hall]; simpl.
  - repeat constructor.
  - destruct (room_createdAt r' <=? room_createdAt r)%Z eqn:Hle.
    + apply Z.leb_le in Hle. constructor; [by constructor|].
      constructor; [lia|]. eapply Forall_impl; [exact Hall|].
      simpl. intros. lia.
    + apply Z.leb_gt in Hle. constructor; [done|].
      rewrite insert_by_createdAt_perm. constructor; [lia|done].
Qed.

(** X18.  [GET /api/rooms], when its query resolves, answers 200 with every
    document of the collection, each once, newest [createdAt] first. *)
Theorem get_rooms_lists_newest_first coll :
  ∃ docs,
    get_rooms Resolves coll = Response 200 (RoomList docs)
    ∧ docs ≡ₚ coll
    ∧ StronglySorted (λ a b, (room_createdAt b ≤ room_createdAt a)%Z) docs.
Proof.
  exists (Room_find_newest_first coll). split_and!; [done| |].
  - apply Room_find_newest_first_perm.
  - unfold Room_find_newest_first.
    induction coll as [|r l IH]; simpl; [constructor|].
    by apply insert_by_createdAt_sorted.
Qed.

(** X19.  A room whose [POST /api/rooms] answered 200 is in the list that
    the next [GET /api/rooms] returns, with the name, id and date it was
    created with. *)
Theorem created_room_is_listed name uuid now findOne save coll :
  status (post_rooms name uuid now findOne save coll).2 = 200%nat →
  ∃ docs,
    get_rooms Resolves (post_rooms name uuid now findOne save coll).1
    = Response 200 (RoomList docs)
    ∧ RoomDoc name uuid now ∈ docs.
Proof.
  intros Hst. destruct (post_rooms_created _ _ _ _ _ _ Hst) as [_ ->].
  eexists. split; [done|]. rewrite Room_find_newest_first_perm.
  apply elem_of_app. right. by left.
Qed.

Lemma created_room_is_listed_witness :
  ∃ docs,
    get_rooms Resolves
              (post_rooms general (js "id-1") 10 Resolves Resolves []).1
    = Response 200 (RoomList docs)
    ∧ RoomDoc general (js "id-1") 10 ∈ docs.
Proof.
  apply (created_room_is_listed general (js "id-1") 10 Resolves Resolves []).
  reflexivity.
Defined.

(** * What a join and a leave broadcast *)




